(** * ChromaCat release script: banner rendering core

    A shallow embedding of the banner helpers of [scripts/release.py]
    ([generate_gradient], [strip_ansi], [apply_gradient], [center_text])
    together with the part of the Python runtime they rely on: unbounded
    integers, IEEE-754 binary64 floats, exceptions, [re.sub] for the one
    pattern the script compiles, and strings as sequences of code points. *)

From Stdlib Require Import String Ascii.
From Stdlib Require Import ZArith NArith List Bool Lia.
From Stdlib Require Import Floats.SpecFloat.
From Stdlib Require Import DecimalString Sorted.
Import ListNotations.

Local Open Scope Z_scope.

(* ================================================================== *)
(** ** Python runtime model *)

Module Py.

(** Exceptions the modelled functions can raise. *)
Inductive exn : Type :=
| ZeroDivisionError
| OverflowError
| ValueError
| IndexError.

(** A computation either returns a value or raises. *)
Inductive result (A : Type) : Type :=
| Ok (a : A)
| Raise (e : exn).
Arguments Ok {A} a.
Arguments Raise {A} e.

Definition bind {A B : Type} (m : result A) (k : A -> result B) : result B :=
  match m with
  | Ok a => k a
  | Raise e => Raise e
  end.

(** A [str] is a sequence of Unicode code points. *)
Definition char : Type := N.
Definition str : Type := list char.

(** String literal (ASCII only). *)
Definition lit (s : string) : str :=
  map N_of_ascii (list_ascii_of_string s).

(** [len(xs)] *)
Definition len {A : Type} (xs : list A) : Z := Z.of_nat (length xs).

(** [range(n)]: empty when [n <= 0]. *)
Definition range (n : Z) : list Z := map Z.of_nat (seq 0 (Z.to_nat n)).

(** [xs[i]], negative indices counted from the end. *)
Definition getitem {A : Type} (xs : list A) (i : Z) : result A :=
  let k := if i <? 0 then i + len xs else i in
  if k <? 0 then Raise IndexError
  else match nth_error xs (Z.to_nat k) with
       | Some x => Ok x
       | None => Raise IndexError
       end.

(** [a // b] on integers: floor division. *)
Definition floordiv (a b : Z) : result Z :=
  if b =? 0 then Raise ZeroDivisionError else Ok (a / b).

(** [a % b] on integers: the result has the sign of [b]. *)
Definition mod_ (a b : Z) : result Z :=
  if b =? 0 then Raise ZeroDivisionError else Ok (a mod b).

(** The least count a sequence repetition takes: the least value of the
    index type ([Py_ssize_t], 64 bits). *)
Definition index_min : Z := - 2 ^ 63.

(** [c * n] for a one-character string [c]: empty when [n <= 0];
    [OverflowError] when [n] is below the index type. Strings, like
    lists, have no bound on their length here: memory is not modelled,
    so a count too large for any machine (CPython gives up there with
    [MemoryError], or [OverflowError] from [2 ^ 63] on) still builds
    its string. *)
Definition repeat_char (c : char) (n : Z) : result str :=
  if n <? index_min then Raise OverflowError else Ok (repeat c (Z.to_nat n)).

(** [str(z)] / [f"{z}"] for an integer: decimal digits, with a sign
    when negative. *)
Definition str_of_int (z : Z) : str :=
  lit (NilZero.string_of_int (Z.to_int z)).

(** [for x in xs: body], threading the loop state and stopping at the
    first exception. *)
Fixpoint for_ {S : Type} (xs : list Z) (body : Z -> S -> result S) (st : S)
  : result S :=
  match xs with
  | [] => Ok st
  | x :: xs' => bind (body x st) (for_ xs' body)
  end.

End Py.

Import Py.

Notation "x <- m ;; k" := (bind m (fun x => k))
  (at level 61, m at next level, right associativity).

(* ================================================================== *)
(** ** Python floats: IEEE-754 binary64, round to nearest even *)

Module F64.

Definition prec : Z := 53.
Definition emax : Z := 1024.

Definition float : Type := spec_float.

(** [float(z)]: correctly rounded, [OverflowError] when too large. *)
Definition of_int (z : Z) : result float :=
  match binary_normalize prec emax z 0 false with
  | S754_infinity _ => Raise OverflowError
  | f => Ok f
  end.

(** [a / b] on integers (true division): the correctly rounded
    quotient of the two integers. *)
Definition truediv_int (a b : Z) : result float :=
  if b =? 0 then Raise ZeroDivisionError
  else if a =? 0 then Ok (S754_zero (b <? 0))
  else
    let '(q, e, l) := SFdiv_core_binary prec emax (Z.abs a) 0 (Z.abs b) 0 in
    match binary_round_aux prec emax (xorb (a <? 0) (b <? 0)) q e l with
    | S754_infinity _ => Raise OverflowError
    | f => Ok f
    end.

Definition add : float -> float -> float := SFadd prec emax.
Definition sub : float -> float -> float := SFsub prec emax.
Definition mul : float -> float -> float := SFmul prec emax.

(** [int(x)]: truncation toward zero. *)
Definition to_int (x : float) : result Z :=
  match x with
  | S754_zero _ => Ok 0
  | S754_infinity _ => Raise OverflowError
  | S754_nan => Raise ValueError
  | S754_finite s m e => Ok (cond_Zopp s (Z.shiftl (Z.pos m) e))
  end.

End F64.

(* ================================================================== *)
(** ** [generate_gradient] *)

Definition color : Type := (Z * Z * Z)%type.

Definition red (c : color) : Z := fst (fst c).
Definition green (c : color) : Z := snd (fst c).
Definition blue (c : color) : Z := snd c.

Definition ESC : char := 27%N.

(** [f"\033[38;2;{r};{g};{b}m"] *)
Definition color_code (r g b : Z) : str :=
  ESC :: lit "[38;2;" ++ str_of_int r ++ lit ";" ++ str_of_int g
      ++ lit ";" ++ str_of_int b ++ lit "m".

(** [int(start * (1 - t) + end * t)] for one channel. *)
Definition interpolate (start_c end_c : Z) (t : F64.float) : result Z :=
  one <- F64.of_int 1 ;;
  s <- F64.of_int start_c ;;
  let lhs := F64.mul s (F64.sub one t) in
  e <- F64.of_int end_c ;;
  let rhs := F64.mul e t in
  F64.to_int (F64.add lhs rhs).

(** Body of the inner loop: one gradient step of one segment. *)
Definition gradient_step (start_color end_color : color)
    (steps_per_segment j : Z) (gradient : list str) : result (list str) :=
  t <- F64.truediv_int j steps_per_segment ;;
  r <- interpolate (red start_color) (red end_color) t ;;
  g <- interpolate (green start_color) (green end_color) t ;;
  b <- interpolate (blue start_color) (blue end_color) t ;;
  Ok (gradient ++ [color_code r g b]).

(** Body of the outer loop: one segment between two key colors. *)
Definition gradient_segment (colors : list color) (steps_per_segment i : Z)
    (gradient : list str) : result (list str) :=
  start_color <- getitem colors i ;;
  end_color <- getitem colors (i + 1) ;;
  for_ (range steps_per_segment)
       (gradient_step start_color end_color steps_per_segment) gradient.

Definition generate_gradient (colors : list color) (steps : Z)
  : result (list str) :=
  let gradient := [] in
  let segments := len colors - 1 in
  q <- floordiv steps segments ;;
  let steps_per_segment := Z.max 1 q in
  for_ (range segments) (gradient_segment colors steps_per_segment) gradient.

(* ================================================================== *)
(** ** [strip_ansi]: [re.sub] with the script's pattern *)

(** The pattern only uses literals, character ranges and starred
    character ranges, in sequence. *)
Inductive atom : Type :=
| One (lo hi : char)    (* [lo-hi] *)
| Star (lo hi : char).  (* [lo-hi]* *)

Arguments One (lo hi)%_N_scope.
Arguments Star (lo hi)%_N_scope.

Definition regex : Type := list atom.

Definition in_range (lo hi c : char) : bool := ((lo <=? c) && (c <=? hi))%N.
Arguments in_range (lo hi c)%_N_scope.

(** Backtracking match anchored at the head of [s]; a star is greedy.
    Returns what is left of [s] after the first match found. *)
Fixpoint match_here (re : regex) (s : str) {struct re} : option str :=
  match re with
  | [] => Some s
  | One lo hi :: re' =>
      match s with
      | c :: s' => if in_range lo hi c then match_here re' s' else None
      | [] => None
      end
  | Star lo hi :: re' =>
      (fix star (s : str) : option str :=
         match s with
         | c :: s' =>
             if in_range lo hi c then
               match star s' with
               | Some rest => Some rest
               | None => match_here re' s
               end
             else match_here re' s
         | [] => match_here re' s
         end) s
  end.

(** [re.sub("", s)]: scan left to right, delete every non-overlapping
    match; [skip] counts the characters of the current match that are
    still to be dropped. *)
Fixpoint sub_empty (re : regex) (skip : nat) (s : str) : str :=
  match s with
  | [] => []
  | c :: s' =>
      match skip with
      | S k => sub_empty re k s'
      | O =>
          match match_here re s with
          | Some rest =>
              match (length s - length rest)%nat with
              | S k => sub_empty re k s'
              | O => c :: sub_empty re O s'
              end
          | None => c :: sub_empty re O s'
          end
      end
  end.

(** [\x1B[@-_][0-?]*[ -/]*[@-~]] *)
Definition ansi_escape : regex :=
  [One 27 27; One 64 95; Star 48 63; Star 32 47; One 64 126].

Definition strip_ansi (text : str) : str := sub_empty ansi_escape O text.

(* ================================================================== *)
(** ** [apply_gradient] *)

(** The generator [f"{gradient[(i + line_number) % len(gradient)]}{char}"
    for i, char in enumerate(text)], from index [i] on. *)
Fixpoint gradient_pieces (i : Z) (text : str) (gradient : list str)
    (line_number : Z) : result (list str) :=
  match text with
  | [] => Ok []
  | char :: text' =>
      k <- mod_ (i + line_number) (len gradient) ;;
      code <- getitem gradient k ;;
      rest <- gradient_pieces (i + 1) text' gradient line_number ;;
      Ok ((code ++ [char]) :: rest)
  end.

Definition apply_gradient (text : str) (gradient : list str)
    (line_number : Z) : result str :=
  pieces <- gradient_pieces 0 text gradient line_number ;;
  Ok (concat pieces).

(* ================================================================== *)
(** ** [center_text] *)

Inductive width_class : Type :=
| ZeroWidth   (* combining marks and other zero-width code points *)
| Wide        (* CJK, fullwidth forms, wide symbols *)
| Narrow.     (* everything else that is recognised *)

Section Layout.

(** The width table of the [wcwidth] package; [None] for a code point
    the table does not know. *)
Variable classify : char -> option width_class.

(** Modelled from the spec: the [wcwidth] package ([wcswidth]) is not
    part of the sources. Each code point counts 0 when zero-width, 2
    when wide and 1 otherwise; an unknown code point falls back to 1. *)
Definition wcwidth (c : char) : Z :=
  match classify c with
  | Some ZeroWidth => 0
  | Some Wide => 2
  | Some Narrow => 1
  | None => 1
  end.

(** Modelled from the spec: [wcswidth] sums the widths of the code
    points. *)
Fixpoint wcswidth (s : str) : Z :=
  match s with
  | [] => 0
  | c :: s' => wcwidth c + wcswidth s'
  end.

Definition space : char := 32%N.

Definition center_text (text : str) (width : Z) : result str :=
  let visible_length := wcswidth (strip_ansi text) in
  let padding := Z.max ((width - visible_length) / 2) 0 in
  bind (repeat_char space padding) (fun left =>
  bind (repeat_char space (width - padding - visible_length)) (fun right =>
  Ok (left ++ text ++ right))).

(** The display width of a line: [wcswidth(strip_ansi(text))]. *)
Definition visible_width (text : str) : Z := wcswidth (strip_ansi text).

End Layout.

(* ================================================================== *)
(** ** Proof-side vocabulary *)

(** A key color as the data model has it: every channel in [0,255]. *)
Definition valid_channel (c : Z) : Prop := 0 <= c <= 255.

Definition valid_color (c : color) : Prop :=
  valid_channel (red c) /\ valid_channel (green c) /\ valid_channel (blue c).

(** A foreground color code with non-negative channels. *)
Definition is_color_code (code : str) : Prop :=
  exists r g b, 0 <= r /\ 0 <= g /\ 0 <= b /\ code = color_code r g b.

(** The float [x] is non-negative and at most [2 ^ k]. *)
Definition le_pow2 (k : Z) (x : F64.float) : Prop :=
  match x with
  | S754_zero false => True
  | S754_finite false m e => e <= k /\ Z.pos m <= 2 ^ (k - e)
  | _ => False
  end.

(** What a greedy starred range leaves of [s]. *)
Fixpoint drop_while (p : char -> bool) (s : str) : str :=
  match s with
  | [] => []
  | c :: s' => if p c then drop_while p s' else s
  end.

(** The escape pattern read as a deterministic left-to-right scan:
    introducer, one byte of [@-_], parameter bytes, intermediate bytes,
    final byte. *)
Definition scan_escape (s : str) : option str :=
  match s with
  | c0 :: c1 :: s2 =>
      if in_range 27 27 c0 && in_range 64 95 c1 then
        match drop_while (in_range 32 47) (drop_while (in_range 48 63) s2) with
        | f :: rest => if in_range 64 126 f then Some rest else None
        | [] => None
        end
      else None
  | _ => None
  end.

(** A parameter byte of an escape sequence, [0-?]. *)
Definition is_param (c : char) : Prop := in_range 48 63 c = true.

(** The color code [apply_gradient] puts before position [i] of a line
    rendered with index [line_number]. *)
Definition color_at (gradient : list str) (line_number : Z) (i : nat) : str :=
  nth (Z.to_nat ((Z.of_nat i + line_number) mod len gradient)) gradient [].

(** A gray color code, all three channels equal. *)
Definition gray_code (v : Z) : str := color_code v v v.

(** The banner's gradient stops ([GRADIENT_COLORS]). *)
Definition GRADIENT_COLORS : list color :=
  [ (75, 0, 130); (138, 43, 226); (148, 0, 211); (199, 21, 133);
    (255, 20, 147); (255, 105, 180); (218, 112, 214); (186, 85, 211);
    (138, 43, 226); (75, 0, 130) ].

(** A small width table for examples: combining diacritics are
    zero-width, CJK unified ideographs are wide, controls are unknown,
    everything else is narrow. *)
Definition sample_classify (c : char) : option width_class :=
  if in_range 768 879 c then Some ZeroWidth
  else if in_range 19968 40959 c then Some Wide
  else if in_range 0 31 c then None
  else Some Narrow.

(** The float [1.0]. *)
Definition one : F64.float := S754_finite false 4503599627370496 (-52).

(** The truncated mantissa [mrs] at exponent [e], with its rounding
    bits, stands for a value of at most [2 ^ k]. *)
Definition within (k : Z) (mrs : shr_record) (e : Z) : Prop :=
  0 <= shr_m mrs /\
  (shr_m mrs < 2 ^ (k - e) \/
   (shr_m mrs = 2 ^ (k - e) /\ shr_r mrs = false /\ shr_s mrs = false)).

(* ================================================================== *)
(** ** [is_valid_version] and [get_current_version]: the version patterns *)

(** The version patterns use literals, [\s*], [\d+], the end anchor and
    one capture group. *)
Inductive token : Type :=
| TChar (c : char)            (* a literal character *)
| TStar (p : char -> bool)    (* zero or more of a class, greedy *)
| TPlus (p : char -> bool)    (* one or more of a class, greedy *)
| TEnd                        (* [$] without MULTILINE *)
| TMark.                      (* a parenthesis of the capture group *)

Arguments TChar c%_N_scope.

Definition newline : char := 10%N.

(** The outcome of a match: what was left of the string at each group
    parenthesis, in order, and what is left after the match. *)
Definition found : Type := (list str * str)%type.

(** Backtracking match anchored at the head of [s]. [$] holds at the
    end of the string and just before a newline that ends it. *)
Fixpoint run (re : list token) (s : str) {struct re} : option found :=
  match re with
  | [] => Some ([], s)
  | TChar a :: re' =>
      match s with
      | c :: s' => if (c =? a)%N then run re' s' else None
      | [] => None
      end
  | TStar p :: re' =>
      (fix star (s : str) : option found :=
         match s with
         | c :: s' =>
             if p c then
               match star s' with
               | Some m => Some m
               | None => run re' s
               end
             else run re' s
         | [] => run re' s
         end) s
  | TPlus p :: re' =>
      match s with
      | c :: s' =>
          if p c then
            (fix star (s : str) : option found :=
               match s with
               | c :: s' =>
                   if p c then
                     match star s' with
                     | Some m => Some m
                     | None => run re' s
                     end
                   else run re' s
               | [] => run re' s
               end) s'
          else None
      | [] => None
      end
  | TEnd :: re' =>
      match s with
      | [] => run re' s
      | [c] => if (c =? newline)%N then run re' s else None
      | _ => None
      end
  | TMark :: re' =>
      match run re' s with
      | Some (marks, rest) => Some (s :: marks, rest)
      | None => None
      end
  end.

(** [re.search]: the first position, left to right, where the pattern
    matches. *)
Fixpoint search (re : list token) (s : str) : option found :=
  match run re s with
  | Some m => Some m
  | None =>
      match s with
      | [] => None
      | _ :: s' => search re s'
      end
  end.

(** The text of a group, from what was left at its two parentheses. *)
Definition group_text (group_start group_end : str) : str :=
  firstn (length group_start - length group_end) group_start.

(** [re.sub] for a pattern [^re] under [re.MULTILINE]: a match is tried
    at the start of the string and right after every newline; each
    match is replaced by [repl] of its groups and the scan goes on after
    it. [bol] tells whether the position is at the start of a line,
    [skip] counts the characters of the current match still to pass. *)
Fixpoint sub_line_starts (re : list token) (repl : list str -> str)
    (bol : bool) (skip : nat) (s : str) : str :=
  match s with
  | [] =>
      match skip, (if bol then run re s else None) with
      | O, Some (marks, _) => repl marks
      | _, _ => []
      end
  | c :: s' =>
      match skip with
      | S k => sub_line_starts re repl (c =? newline)%N k s'
      | O =>
          match (if bol then run re s else None) with
          | Some (marks, rest) =>
              match (length s - length rest)%nat with
              | S k => repl marks
                         ++ sub_line_starts re repl (c =? newline)%N k s'
              | O => repl marks
                       ++ c :: sub_line_starts re repl (c =? newline)%N O s'
              end
          | None => c :: sub_line_starts re repl (c =? newline)%N O s'
          end
      end
  end.

Section Version.

(** The decimal digits of Python's [\d] on [str] (Unicode category Nd)
    and the whitespace of [\s]. The tables belong to the interpreter
    and are taken as parameters. *)
Variable is_decimal : char -> bool.
Variable is_space : char -> bool.

(** [\d+\.\d+\.\d+] *)
Definition three_numbers : list token :=
  [TPlus is_decimal; TChar 46; TPlus is_decimal; TChar 46; TPlus is_decimal].

(** [^\d+\.\d+\.\d+$], anchored at the start by [re.match] *)
Definition version_pattern : list token := three_numbers ++ [TEnd].

(** [re.match(pattern, version) is not None] *)
Definition is_valid_version (version : str) : bool :=
  match run version_pattern version with
  | Some _ => true
  | None => false
  end.

(** [version\s*=\s*] *)
Definition version_key : list token :=
  map TChar (lit "version") ++ [TStar is_space; TChar 61; TStar is_space].

(** [version\s*=\s*"(\d+\.\d+\.\d+)"] *)
Definition cargo_version_pattern : list token :=
  version_key ++ [TChar 34; TMark] ++ three_numbers ++ [TMark; TChar 34].

(** [get_current_version], as a function of the text read from
    [Cargo.toml]: [match.group(1)] of the first match, or [None] when
    there is no match and the script prints an error and exits. *)
Definition get_current_version (content : str) : option str :=
  match search cargo_version_pattern content with
  | Some (group_start :: group_end :: _, _) =>
      Some (group_text group_start group_end)
  | _ => None
  end.

(** The pattern of [update_version] without its [^], to be tried at
    line starts: group 1 is the key with its [=] and the spaces around
    it, group 2 the three numbers between the quotes. *)
Definition cargo_update_pattern : list token :=
  [TMark] ++ version_key ++ [TMark; TChar 34; TMark]
  ++ three_numbers ++ [TMark; TChar 34].

(** The template [\1"{new_version}"] applied to a match: group 1, then
    the new version between quotes. *)
Definition version_replacement (new_version : str) (marks : list str) : str :=
  match marks with
  | g1_start :: g1_end :: _ =>
      group_text g1_start g1_end ++ 34%N :: new_version ++ [34%N]
  | _ => []
  end.

(** [update_version], as a function from the text read from
    [Cargo.toml] to the text written back. When [new_version] holds a
    backslash the template carries further escapes for [re] to read;
    that case is left out ([None]). *)
Definition update_version (new_version content : str) : option str :=
  if existsb (N.eqb 92) new_version then None
  else Some (sub_line_starts cargo_update_pattern
               (version_replacement new_version) true O content).

End Version.

(* ================================================================== *)
(** ** More proof-side vocabulary *)

(** [s] is [t] with some characters deleted. *)
Inductive subseq : str -> str -> Prop :=
| subseq_nil : subseq [] []
| subseq_keep (c : char) (s t : str) : subseq s t -> subseq (c :: s) (c :: t)
| subseq_drop (c : char) (s t : str) : subseq s t -> subseq s (c :: t).

(** What follows the partial sequence after an ESC: the text [t] after
    the ESC without its byte of [@-_] and the parameter and intermediate
    bytes behind it; [t] itself when it does not start with a byte of
    [@-_]. *)
Definition after_partial (t : str) : str :=
  match t with
  | [] => []
  | c1 :: t' =>
      if in_range 64 95 c1
      then drop_while (in_range 32 47) (drop_while (in_range 48 63) t')
      else t
  end.

(** No stray ESC of [s] (one that begins no complete escape sequence)
    has a complete escape sequence right behind its partial sequence. *)
Definition no_sequence_behind_stray (s : str) : Prop :=
  forall pre t,
    s = pre ++ ESC :: t ->
    match_here ansi_escape (ESC :: t) = None ->
    match_here ansi_escape (after_partial t) = None.

(** The same, checked position by position. *)
Fixpoint no_sequence_behind_stray_check (s : str) : bool :=
  match s with
  | [] => true
  | c :: t =>
      (if (c =? ESC)%N then
         match match_here ansi_escape (c :: t),
               match_here ansi_escape (after_partial t) with
         | None, Some _ => false
         | _, _ => true
         end
       else true)
      && no_sequence_behind_stray_check t
  end.

(** A complete escape sequence: ESC, one byte of [@-_], parameter bytes
    [0-?], intermediate bytes [ -/], one final byte of [@-~]. *)
Definition escape_sequence (q : str) : Prop :=
  exists c1 params inters final,
    q = ESC :: c1 :: params ++ inters ++ [final]
    /\ in_range 64 95 c1 = true
    /\ Forall is_param params
    /\ Forall (fun c => in_range 32 47 c = true) inters
    /\ in_range 64 126 final = true.

(** A non-empty run of decimal digits. *)
Definition digit_run (is_decimal : char -> bool) (a : str) : Prop :=
  a <> [] /\ Forall (fun c => is_decimal c = true) a.

(** The key color a segment starts from, as a color code. *)
Definition key_code (c : color) : str :=
  color_code (red c) (green c) (blue c).

(** What a greedy starred class does on [s] before the rest of the
    pattern [k]: the longest run first, then shorter ones. *)
Fixpoint star (p : char -> bool) (k : str -> option found) (s : str)
  : option found :=
  match s with
  | c :: s' =>
      if p c then
        match star p k s' with
        | Some m => Some m
        | None => k s
        end
      else k s
  | [] => k s
  end.

(** The text [pre] ends a line: what comes right after it starts one. *)
Definition line_start (pre : str) : Prop :=
  pre = [] \/ exists pre', pre = pre' ++ [newline].

(** The text matched by [version\s*=\s*"a.b.c"], given its parts. *)
Definition version_entry (ws1 ws2 number : str) : str :=
  lit "version" ++ ws1 ++ 61%N :: ws2 ++ 34%N :: number ++ [34%N].

(** A run of whitespace, possibly empty. *)
Definition space_run (is_space : char -> bool) (ws : str) : Prop :=
  Forall (fun x => is_space x = true) ws.

(** What follows the key in both [Cargo.toml] patterns: the quoted
    numbers, with group parentheses around the numbers. *)
Definition quoted_numbers (is_decimal : char -> bool) : list token :=
  TChar 34 :: TMark :: three_numbers is_decimal ++ [TMark; TChar 34].

(** Three runs of digits joined by dots. *)
Definition dotted (a b c : str) : str := a ++ 46%N :: b ++ 46%N :: c.

(** Whether a position is at the start of a line, after the text [pre]
    read from a position that was ([bol]) or was not. *)
Definition bol_after (bol : bool) (pre : str) : bool :=
  match rev pre with
  | [] => bol
  | c :: _ => (c =? newline)%N
  end.

(** Unicode whitespace restricted to ASCII: a table for examples. *)
Definition ascii_space (c : char) : bool :=
  in_range 9 13 c || in_range 28 32 c.

(** ASCII digits only: a digit table for examples. *)
Definition ascii_decimal (c : char) : bool := in_range 48 57 c.

(* ================================================================== *)
(** ** Rounding keeps a value below a power of two *)

Module Rounding.
Import F64.

Lemma digits2_pos_log2 (p : positive) :
  Z.pos (digits2_pos p) = Z.log2 (Z.pos p) + 1.
Proof.
  assert (H : forall q, digits2_pos q = Pos.size q)
    by (induction q; simpl; congruence).
  rewrite H. destruct p; simpl; lia.
Qed.

Lemma Zdigits2_le (m d : Z) :
  0 <= m -> 0 <= d -> m < 2 ^ d -> Zdigits2 m <= d.
Proof.
  intros Hm Hd Hlt. destruct m as [|p|p]; simpl; try lia.
  rewrite digits2_pos_log2.
  assert (Z.log2 (Z.pos p) < d) by (apply Z.log2_lt_pow2; lia).
  lia.
Qed.

Lemma pow2_split (n : Z) : 0 < n -> 2 ^ n = 2 * 2 ^ (n - 1).
Proof.
  intros Hn. replace n with (Z.succ (n - 1)) at 1 by lia.
  apply Z.pow_succ_r. lia.
Qed.

Lemma pow2_pos (n : Z) : 0 <= n -> 0 < 2 ^ n.
Proof. intros. apply Z.pow_pos_nonneg; lia. Qed.

Lemma shr_1_within (k e : Z) (mrs : shr_record) :
  e < k -> within k mrs e -> within k (shr_1 mrs) (e + 1).
Proof.
  intros Hek [Hnn Hb]. unfold within in *.
  assert (Hp : 2 ^ (k - e) = 2 * 2 ^ (k - (e + 1))).
  { rewrite (pow2_split (k - e)) by lia. do 2 f_equal. lia. }
  assert (Hq : 0 < 2 ^ (k - (e + 1))) by (apply pow2_pos; lia).
  rewrite Hp in Hb. clear Hp.
  generalize dependent (2 ^ (k - (e + 1))). intros P Hb HP.
  destruct mrs as [m r s]; cbn [shr_m shr_r shr_s] in *.
  destruct m as [|[p|p|]|p]; cbn [shr_1 shr_m shr_r shr_s]; try lia.
  rewrite Pos2Z.inj_xO in Hb. split; [lia|].
  destruct Hb as [Hb|(Hb & -> & ->)]; [left; lia|right].
  repeat split; lia.
Qed.

Lemma iter_shr_1_within (k : Z) (p : positive) :
  forall mrs e, e + Z.pos p <= k -> within k mrs e ->
                within k (iter_pos shr_1 p mrs) (e + Z.pos p).
Proof.
  induction p as [p IH|p IH|]; intros mrs e Hle Hw; simpl.
  - rewrite Pos2Z.inj_xI in *.
    replace (e + (2 * Z.pos p + 1)) with (e + 1 + Z.pos p + Z.pos p) by lia.
    apply IH; [lia|]. apply IH; [lia|]. apply shr_1_within; [lia|exact Hw].
  - rewrite Pos2Z.inj_xO in *.
    replace (e + 2 * Z.pos p) with (e + Z.pos p + Z.pos p) by lia.
    apply IH; [lia|]. apply IH; [lia|exact Hw].
  - apply shr_1_within; [lia|exact Hw].
Qed.

Lemma within_of_loc (k m e : Z) (l : location) :
  0 <= m -> (m < 2 ^ (k - e) \/ (m = 2 ^ (k - e) /\ l = loc_Exact)) ->
  within k (shr_record_of_loc m l) e.
Proof.
  intros Hm Hb. unfold within.
  destruct l as [|[]]; simpl; (split; [exact Hm|]);
    destruct Hb as [Hb|[Hb Hl]]; try discriminate; auto.
Qed.

Lemma shr_fexp_within (k m e : Z) (l : location) :
  emin prec emax <= k -> e <= k -> 0 <= m ->
  (m < 2 ^ (k - e) \/ (m = 2 ^ (k - e) /\ l = loc_Exact)) ->
  within k (fst (shr_fexp prec emax m e l)) (snd (shr_fexp prec emax m e l))
  /\ snd (shr_fexp prec emax m e l) <= k.
Proof.
  intros Hmin Hek Hm Hb.
  pose proof (within_of_loc k m e l Hm Hb) as Hw.
  assert (Hd : Zdigits2 m <= k - e + 1).
  { apply Zdigits2_le; try lia.
    pose proof (pow2_pos (k - e) ltac:(lia)).
    rewrite (pow2_split (k - e + 1)) by lia.
    replace (k - e + 1 - 1) with (k - e) by lia. lia. }
  unfold shr_fexp, shr.
  destruct (fexp prec emax (Zdigits2 m + e) - e) as [|n|n] eqn:Hn;
    simpl; try (split; [exact Hw|lia]).
  assert (e + Z.pos n <= k).
  { unfold fexp, emin, prec, emax in *. lia. }
  split; [apply iter_shr_1_within; assumption|assumption].
Qed.

Lemma round_nearest_even_within (k e : Z) (mrs : shr_record) :
  within k mrs e ->
  0 <= round_nearest_even (shr_m mrs) (loc_of_shr_record mrs) <= 2 ^ (k - e).
Proof.
  intros [Hnn Hb]. destruct mrs as [m [] []]; simpl in *;
    try destruct (Z.even m);
    destruct Hb as [Hb|(Hb & Hr & Hs)]; try discriminate; lia.
Qed.

(** The rounding step of every operation: a non-negative value of at
    most [2 ^ k] rounds to a non-negative float of at most [2 ^ k],
    never to an infinity. *)
Lemma binary_round_aux_le_pow2 (k m e : Z) (l : location) :
  emin prec emax <= k <= emax - prec -> e <= k -> 0 <= m ->
  (m < 2 ^ (k - e) \/ (m = 2 ^ (k - e) /\ l = loc_Exact)) ->
  le_pow2 k (binary_round_aux prec emax false m e l).
Proof.
  intros [Hmin Hmax] Hek Hm Hb. unfold binary_round_aux.
  destruct (shr_fexp_within k m e l Hmin Hek Hm Hb) as [Hw1 He1].
  destruct (shr_fexp prec emax m e l) as [mrs1 e1]; simpl in Hw1, He1.
  pose proof (round_nearest_even_within k e1 mrs1 Hw1) as Hr.
  set (m1 := round_nearest_even (shr_m mrs1) (loc_of_shr_record mrs1)) in *.
  assert (Hb1 : m1 < 2 ^ (k - e1) \/ (m1 = 2 ^ (k - e1) /\ loc_Exact = loc_Exact)).
  { destruct (Z.eq_dec m1 (2 ^ (k - e1))); [right; split; auto|left; lia]. }
  destruct (shr_fexp_within k m1 e1 loc_Exact Hmin He1 (proj1 Hr) Hb1)
    as [Hw2 He2].
  destruct (shr_fexp prec emax m1 e1 loc_Exact) as [mrs2 e2];
    simpl in Hw2, He2.
  destruct Hw2 as [Hnn2 Hb2].
  destruct (shr_m mrs2) as [|p|p] eqn:Hm2; cbn [le_pow2]; try lia.
  replace (e2 <=? emax - prec) with true by (symmetry; apply Z.leb_le; lia).
  cbn [le_pow2]. split; [exact He2|lia].
Qed.

Lemma iter_xO_pow2 (d m : positive) :
  Z.pos (Pos.iter xO m d) = Z.pos m * 2 ^ Z.pos d.
Proof.
  induction d as [|d IH] using Pos.peano_ind.
  - simpl. lia.
  - rewrite Pos.iter_succ, Pos2Z.inj_xO, IH, Pos2Z.inj_succ.
    rewrite Z.pow_succ_r by lia. lia.
Qed.

Lemma shl_align_spec (mx : positive) (ex ex' : Z) :
  snd (shl_align mx ex ex') <= ex /\
  Z.pos (fst (shl_align mx ex ex'))
  = Z.pos mx * 2 ^ (ex - snd (shl_align mx ex ex')).
Proof.
  unfold shl_align. destruct (ex' - ex) as [|d|d] eqn:Hd; cbn [fst snd].
  - rewrite Z.sub_diag, Z.mul_1_r. lia.
  - rewrite Z.sub_diag, Z.mul_1_r. lia.
  - split; [lia|]. rewrite iter_xO_pow2. do 2 f_equal. lia.
Qed.

Lemma pow2_add (a b : Z) : 0 <= a -> 0 <= b -> 2 ^ (a + b) = 2 ^ a * 2 ^ b.
Proof. intros. apply Z.pow_add_r; assumption. Qed.

Lemma binary_round_le_pow2 (k : Z) (mx : positive) (ex : Z) :
  emin prec emax <= k <= emax - prec -> ex <= k ->
  Z.pos mx <= 2 ^ (k - ex) ->
  le_pow2 k (binary_round prec emax false mx ex).
Proof.
  intros Hk Hek Hb. unfold binary_round.
  destruct (shl_align_spec mx ex (fexp prec emax (Z.pos (digits2_pos mx) + ex)))
    as [Hle Hval].
  destruct (shl_align mx ex _) as [mz ez]; cbn [fst snd] in Hle, Hval.
  assert (Hz : Z.pos mz <= 2 ^ (k - ez)).
  { replace (k - ez) with ((k - ex) + (ex - ez)) by lia.
    rewrite pow2_add, Hval by lia.
    apply Z.mul_le_mono_nonneg_r; [apply Z.lt_le_incl, pow2_pos|]; lia. }
  apply binary_round_aux_le_pow2; try lia.
  destruct (Z.eq_dec (Z.pos mz) (2 ^ (k - ez))); [right; split; auto|left; lia].
Qed.

Lemma binary_normalize_le_pow2 (k m e : Z) :
  emin prec emax <= k <= emax - prec -> e <= k ->
  0 <= m <= 2 ^ (k - e) ->
  le_pow2 k (binary_normalize prec emax m e false).
Proof.
  intros Hk Hek Hb. destruct m as [|p|p]; simpl; try lia.
  apply binary_round_le_pow2; lia.
Qed.

Lemma le_pow2_mono (k k' : Z) (x : float) :
  k <= k' -> le_pow2 k x -> le_pow2 k' x.
Proof.
  intros Hkk. destruct x as [[]|?| |[] m e]; simpl; auto.
  intros [He Hm]. split; [lia|].
  eapply Z.le_trans; [exact Hm|]. apply Z.pow_le_mono_r; lia.
Qed.

(** [float(z)] of a small non-negative integer. *)
Lemma of_int_le_pow2 (k z : Z) :
  0 <= k <= emax - prec -> 0 <= z <= 2 ^ k ->
  exists f, of_int z = Ok f /\ le_pow2 k f.
Proof.
  intros Hk Hz. unfold of_int.
  assert (H : le_pow2 k (binary_normalize prec emax z 0 false)).
  { apply binary_normalize_le_pow2; unfold emin, prec, emax in *; try lia.
    rewrite Z.sub_0_r. lia. }
  destruct (binary_normalize prec emax z 0 false) as [[]|?| |[] m e];
    simpl in H; try contradiction; eexists; split; try reflexivity; exact H.
Qed.

Lemma mul_le_pow2 (a b : Z) (x y : float) :
  emin prec emax <= a + b <= emax - prec ->
  le_pow2 a x -> le_pow2 b y -> le_pow2 (a + b) (mul x y).
Proof.
  intros Hk Hx Hy.
  destruct x as [[]|?| |[] mx ex]; simpl in Hx; try contradiction;
    destruct y as [[]|?| |[] my ey]; simpl in Hy; try contradiction;
    try exact I.
  destruct Hx as [Hex Hmx], Hy as [Hey Hmy].
  unfold mul, SFmul. cbn [xorb].
  apply binary_round_aux_le_pow2; try lia.
  assert (Z.pos (mx * my) <= 2 ^ (a + b - (ex + ey))).
  { replace (a + b - (ex + ey)) with ((a - ex) + (b - ey)) by lia.
    rewrite pow2_add, Pos2Z.inj_mul by lia.
    apply Z.mul_le_mono_nonneg; lia. }
  destruct (Z.eq_dec (Z.pos (mx * my)) (2 ^ (a + b - (ex + ey))));
    [right; split; auto|left; lia].
Qed.

Lemma shl_align_snd (m : positive) (e ez : Z) :
  ez <= e -> snd (shl_align m e ez) = ez.
Proof.
  intros Hez. unfold shl_align.
  destruct (ez - e) as [|d|d] eqn:Hd; cbn [snd]; lia.
Qed.

Lemma shl_align_val (m : positive) (e ez : Z) :
  ez <= e -> Z.pos (fst (shl_align m e ez)) = Z.pos m * 2 ^ (e - ez).
Proof.
  intros Hez. destruct (shl_align_spec m e ez) as [_ Hval].
  rewrite shl_align_snd in Hval by assumption. exact Hval.
Qed.

Lemma aligned_le_pow2 (k : Z) (m : positive) (e ez : Z) :
  ez <= e -> e <= k -> Z.pos m <= 2 ^ (k - e) ->
  Z.pos (fst (shl_align m e ez)) <= 2 ^ (k - ez).
Proof.
  intros Hez Hek Hm. rewrite shl_align_val by assumption.
  replace (k - ez) with ((k - e) + (e - ez)) by lia.
  rewrite pow2_add by lia.
  apply Z.mul_le_mono_nonneg_r; [apply Z.lt_le_incl, pow2_pos|]; lia.
Qed.

Lemma add_le_pow2 (k : Z) (x y : float) :
  emin prec emax <= k + 1 <= emax - prec ->
  le_pow2 k x -> le_pow2 k y -> le_pow2 (k + 1) (add x y).
Proof.
  intros Hk Hx Hy.
  destruct x as [[]|?| |[] mx ex]; simpl in Hx; try contradiction;
    destruct y as [[]|?| |[] my ey]; simpl in Hy; try contradiction;
    try exact I;
    try (apply le_pow2_mono with (k := k); [lia|assumption]).
  destruct Hx as [Hex Hmx], Hy as [Hey Hmy].
  unfold add, SFadd. cbn [cond_Zopp].
  set (ez := Z.min ex ey).
  pose proof (aligned_le_pow2 k mx ex ez ltac:(lia) Hex Hmx) as Hax.
  pose proof (aligned_le_pow2 k my ey ez ltac:(lia) Hey Hmy) as Hay.
  apply binary_normalize_le_pow2; try lia.
  rewrite (pow2_split (k + 1 - ez)) by lia.
  replace (k + 1 - ez - 1) with (k - ez) by lia. lia.
Qed.

Lemma of_int_1 : of_int 1 = Ok one.
Proof. reflexivity. Qed.

(** [1 - t] stays in the unit interval. *)
Lemma sub_one_le_pow2 (t : float) : le_pow2 0 t -> le_pow2 0 (sub one t).
Proof.
  intros Ht.
  destruct t as [[]|?| |[] m e]; simpl in Ht; try contradiction.
  - simpl. split; [lia|reflexivity].
  - destruct Ht as [He Hm]. unfold sub, SFsub, one. cbn [cond_Zopp].
    set (ez := Z.min (-52) e).
    assert (Hone : Z.pos (fst (shl_align 4503599627370496 (-52) ez))
                   = 2 ^ (0 - ez)).
    { rewrite shl_align_val by lia.
      replace (0 - ez) with (52 + (-52 - ez)) by lia.
      rewrite pow2_add by lia. reflexivity. }
    pose proof (aligned_le_pow2 0 m e ez ltac:(lia) He Hm) as Hle.
    pose proof (pow2_pos (0 - ez) ltac:(lia)) as Hpos.
    apply binary_normalize_le_pow2;
      unfold emin, prec, emax; try lia.
Qed.

(** [j / n] for [0 <= j < n] lies in the unit interval. *)
Lemma truediv_int_le_pow2 (j n : Z) :
  0 <= j < n -> exists t, truediv_int j n = Ok t /\ le_pow2 0 t.
Proof.
  intros Hj. unfold truediv_int.
  replace (n =? 0) with false by (symmetry; apply Z.eqb_neq; lia).
  replace (n <? 0) with false by (symmetry; apply Z.ltb_ge; lia).
  destruct (j =? 0) eqn:Hj0; [eexists; split; [reflexivity|exact I]|].
  apply Z.eqb_neq in Hj0.
  replace (j <? 0) with false by (symmetry; apply Z.ltb_ge; lia).
  cbn [xorb]. rewrite !Z.abs_eq by lia.
  unfold SFdiv_core_binary.
  set (e' := Z.min (fexp prec emax (Zdigits2 j + 0 - (Zdigits2 n + 0))) (0 - 0)).
  assert (He' : e' <= 0) by (unfold e'; lia).
  set (m' := match 0 - 0 - e' with
             | 0 => j
             | Z.pos _ => Z.shiftl j (0 - 0 - e')
             | Z.neg _ => 0
             end).
  assert (Hm' : m' = j * 2 ^ (0 - e')).
  { unfold m'. destruct (0 - 0 - e') as [|s|s] eqn:Hs; try lia.
    - replace (0 - e') with 0 by lia. lia.
    - rewrite Z.shiftl_mul_pow2 by lia. do 2 f_equal. lia. }
  pose proof (pow2_pos (0 - e') ltac:(lia)) as Hpos.
  destruct (Z.div_eucl m' n) as [q r] eqn:Hqr.
  assert (Hq : q = m' / n) by (unfold Z.div; rewrite Hqr; reflexivity).
  assert (Hq0 : 0 <= q) by (rewrite Hq; apply Z.div_pos; nia).
  assert (Hq1 : q < 2 ^ (0 - e')).
  { rewrite Hq. apply Z.div_lt_upper_bound; nia. }
  assert (H : le_pow2 0 (binary_round_aux prec emax false q e'
                                          (new_location n r))).
  { apply binary_round_aux_le_pow2; unfold emin, prec, emax; try lia. }
  destruct (binary_round_aux prec emax false q e' (new_location n r))
    as [[]|?| |[] m e]; simpl in H; try contradiction;
    eexists; split; try reflexivity; exact H.
Qed.

Lemma to_int_nonneg (k : Z) (x : float) :
  le_pow2 k x -> exists z, to_int x = Ok z /\ 0 <= z.
Proof.
  destruct x as [[]|?| |[] m e]; simpl; try contradiction; intros H.
  - exists 0. split; [reflexivity|lia].
  - eexists. split; [reflexivity|]. apply Z.shiftl_nonneg. lia.
Qed.

End Rounding.

(* ================================================================== *)
(** ** Interpolated channels are computed without error *)

Lemma interpolate_nonneg (start_c end_c : Z) (t : F64.float) :
  valid_channel start_c -> valid_channel end_c -> le_pow2 0 t ->
  exists z, interpolate start_c end_c t = Ok z /\ 0 <= z.
Proof.
  intros Hs He Ht. unfold interpolate, valid_channel in *.
  rewrite Rounding.of_int_1. cbn [bind].
  destruct (Rounding.of_int_le_pow2 8 start_c) as (fs & -> & Hfs);
    [unfold F64.emax, F64.prec; lia|change (2 ^ 8) with 256; lia|].
  destruct (Rounding.of_int_le_pow2 8 end_c) as (fe & -> & Hfe);
    [unfold F64.emax, F64.prec; lia|change (2 ^ 8) with 256; lia|].
  cbn [bind].
  apply Rounding.to_int_nonneg with (k := 8 + 1).
  apply Rounding.add_le_pow2;
    [unfold emin, F64.emax, F64.prec; lia| |].
  - change 8 with (8 + 0).
    apply Rounding.mul_le_pow2;
      [unfold emin, F64.emax, F64.prec; lia|assumption|].
    apply Rounding.sub_one_le_pow2. assumption.
  - change 8 with (8 + 0).
    apply Rounding.mul_le_pow2;
      [unfold emin, F64.emax, F64.prec; lia|assumption|assumption].
Qed.

(* ================================================================== *)
(** ** Loops, ranges and indexing *)

Lemma range_In (n x : Z) : In x (range n) -> 0 <= x < n.
Proof.
  unfold range. rewrite in_map_iff. intros (k & <- & Hk).
  apply in_seq in Hk. lia.
Qed.

Lemma range_length (n : Z) : length (range n) = Z.to_nat n.
Proof. unfold range. rewrite length_map, length_seq. reflexivity. Qed.

Lemma getitem_ok {A : Type} (xs : list A) (i : Z) :
  0 <= i < len xs -> exists x, getitem xs i = Ok x /\ In x xs.
Proof.
  intros Hi. unfold getitem, len in *. cbv zeta.
  assert (Hneg : (i <? 0) = false) by (apply Z.ltb_ge; lia).
  rewrite !Hneg.
  destruct (nth_error xs (Z.to_nat i)) as [x|] eqn:Hx.
  - exists x. split; [reflexivity|]. eapply nth_error_In; eassumption.
  - apply nth_error_None in Hx. lia.
Qed.

(** A loop whose body keeps an invariant and grows the state by [d]
    at every iteration runs to completion. *)
Lemma for_invariant {S : Type} (I : S -> Prop) (size : S -> nat) (d : nat)
    (xs : list Z) (body : Z -> S -> result S) :
  (forall x st, In x xs -> I st ->
     exists st', body x st = Ok st' /\ I st' /\ size st' = (size st + d)%nat) ->
  forall st, I st ->
    exists st', for_ xs body st = Ok st' /\ I st'
                /\ size st' = (size st + length xs * d)%nat.
Proof.
  induction xs as [|x xs IH]; intros Hbody st Hst.
  - exists st. simpl. repeat split; [assumption|lia].
  - destruct (Hbody x st (or_introl eq_refl) Hst) as (st1 & H1 & HI1 & Hs1).
    destruct IH with (st := st1) as (st2 & H2 & HI2 & Hs2); [|assumption|].
    { intros y st' Hy. apply Hbody. right. assumption. }
    exists st2. simpl. rewrite H1. cbn [bind].
    repeat split; [assumption|assumption|lia].
Qed.

(* ================================================================== *)
(** ** [generate_gradient] on valid key colors *)

Lemma gradient_step_ok (start_color end_color : color)
    (steps_per_segment j : Z) (gradient : list str) :
  valid_color start_color -> valid_color end_color ->
  0 <= j < steps_per_segment -> Forall is_color_code gradient ->
  exists gradient',
    gradient_step start_color end_color steps_per_segment j gradient
    = Ok gradient'
    /\ Forall is_color_code gradient'
    /\ length gradient' = (length gradient + 1)%nat.
Proof.
  intros (Hsr & Hsg & Hsb) (Her & Heg & Heb) Hj Hg. unfold gradient_step.
  destruct (Rounding.truediv_int_le_pow2 j steps_per_segment Hj)
    as (t & -> & Ht).
  cbn [bind].
  destruct (interpolate_nonneg _ _ t Hsr Her Ht) as (r & -> & Hr).
  destruct (interpolate_nonneg _ _ t Hsg Heg Ht) as (g & -> & Hgn).
  destruct (interpolate_nonneg _ _ t Hsb Heb Ht) as (b & -> & Hb).
  cbn [bind]. eexists. split; [reflexivity|]. split.
  - apply Forall_app. split; [assumption|].
    constructor; [|constructor]. exists r, g, b. auto.
  - rewrite length_app. reflexivity.
Qed.

Lemma gradient_segment_ok (colors : list color) (steps_per_segment i : Z)
    (gradient : list str) :
  Forall valid_color colors -> 0 <= i < len colors - 1 ->
  Forall is_color_code gradient ->
  exists gradient',
    gradient_segment colors steps_per_segment i gradient = Ok gradient'
    /\ Forall is_color_code gradient'
    /\ length gradient'
       = (length gradient + Z.to_nat steps_per_segment)%nat.
Proof.
  intros Hvalid Hi Hg. unfold gradient_segment.
  destruct (getitem_ok colors i) as (sc & -> & Hsc); [lia|].
  destruct (getitem_ok colors (i + 1)) as (ec & -> & Hec); [lia|].
  cbn [bind]. rewrite Forall_forall in Hvalid.
  destruct (for_invariant (Forall is_color_code) (@length str) 1
              (range steps_per_segment)
              (gradient_step sc ec steps_per_segment)) with (st := gradient)
    as (g' & Hrun & Hcodes & Hlen); [|assumption|].
  { intros j g Hj Hgc. apply gradient_step_ok; auto using range_In. }
  exists g'. rewrite range_length in Hlen. repeat split; [assumption..|lia].
Qed.

(** On at least two valid key colors the gradient is produced, consists
    of color codes and has [segments * steps_per_segment] entries. *)
Lemma generate_gradient_ok (colors : list color) (steps : Z) :
  2 <= len colors -> Forall valid_color colors ->
  exists gradient,
    generate_gradient colors steps = Ok gradient
    /\ Forall is_color_code gradient
    /\ len gradient
       = (len colors - 1) * Z.max 1 (steps / (len colors - 1)).
Proof.
  intros Hlen Hvalid. unfold generate_gradient, floordiv.
  replace (len colors - 1 =? 0) with false by (symmetry; apply Z.eqb_neq; lia).
  cbn [bind].
  set (sps := Z.max 1 (steps / (len colors - 1))).
  destruct (for_invariant (Forall is_color_code) (@length str)
              (Z.to_nat sps) (range (len colors - 1))
              (gradient_segment colors sps)) with (st := @nil str)
    as (g & Hrun & Hcodes & Hsize); [|constructor|].
  { intros i g Hi Hg. apply gradient_segment_ok; auto using range_In. }
  exists g. repeat split; [assumption..|].
  rewrite range_length in Hsize. unfold len at 1. rewrite Hsize. simpl.
  rewrite Nat2Z.inj_mul, !Z2Nat.id by lia. reflexivity.
Qed.

(* ================================================================== *)
(** ** The escape pattern *)

Lemma match_star_cons (lo hi : char) (re : regex) (c : char) (s : str) :
  match_here (Star lo hi :: re) (c :: s)
  = if in_range lo hi c then
      match match_here (Star lo hi :: re) s with
      | Some rest => Some rest
      | None => match_here re (c :: s)
      end
    else match_here re (c :: s).
Proof. reflexivity. Qed.

(** When what follows a starred range cannot start inside the range,
    backtracking never helps: the star takes the longest run. *)
Lemma star_greedy (lo hi : char) (re : regex) :
  (forall c s, in_range lo hi c = true -> match_here re (c :: s) = None) ->
  forall s, match_here (Star lo hi :: re) s
            = match_here re (drop_while (in_range lo hi) s).
Proof.
  intros Hre. induction s as [|c s IH]; [reflexivity|].
  rewrite match_star_cons. cbn [drop_while].
  destruct (in_range lo hi c) eqn:Hc; [|reflexivity].
  rewrite IH. destruct (match_here re (drop_while (in_range lo hi) s)) eqn:Hm;
    [reflexivity|]. apply Hre. assumption.
Qed.

Lemma in_range_disjoint (lo hi lo' hi' c : char) :
  (hi < lo')%N -> in_range lo hi c = true -> in_range lo' hi' c = false.
Proof.
  unfold in_range. intros Hlt Hc.
  apply andb_true_iff in Hc. destruct Hc as [H1 H2].
  apply N.leb_le in H1, H2. apply andb_false_iff. left.
  apply N.leb_gt. lia.
Qed.

Lemma match_ansi_escape (s : str) :
  match_here ansi_escape s = scan_escape s.
Proof.
  unfold ansi_escape, scan_escape.
  destruct s as [|c0 [|c1 s2]]; cbn [match_here].
  - reflexivity.
  - destruct (in_range 27 27 c0); reflexivity.
  - destruct (in_range 27 27 c0); [|reflexivity].
    destruct (in_range 64 95 c1); [|reflexivity]. cbn [andb].
    change (match_here [Star 48 63; Star 32 47; One 64 126] s2
            = match drop_while (in_range 32 47)
                               (drop_while (in_range 48 63) s2) with
              | f :: rest => if in_range 64 126 f then Some rest else None
              | [] => None
              end).
    assert (Hfinal : forall c s, in_range 32 47 c = true ->
                                 match_here [One 64 126] (c :: s) = None).
    { intros c s Hc. cbn [match_here].
      rewrite (in_range_disjoint 32 47 64 126 c)%N; [reflexivity|lia|assumption]. }
    rewrite star_greedy.
    + rewrite star_greedy by exact Hfinal. reflexivity.
    + intros c s Hc. rewrite star_greedy by exact Hfinal.
      cbn [drop_while].
      assert (Hc' : in_range 32 47 c = false).
      { unfold in_range in *. apply andb_true_iff in Hc. destruct Hc as [H1 H2].
        apply N.leb_le in H1, H2. apply andb_false_iff. right.
        apply N.leb_gt. lia. }
      rewrite Hc'. cbn [match_here].
      rewrite (in_range_disjoint 48 63 64 126 c)%N; [reflexivity|lia|assumption].
Qed.

Lemma drop_while_app (p : char -> bool) (a b : str) :
  drop_while p (a ++ b)
  = match drop_while p a with
    | [] => drop_while p b
    | c :: r => (c :: r) ++ b
    end.
Proof.
  induction a as [|c a IH]; cbn [drop_while app].
  - destruct (drop_while p b); reflexivity.
  - destruct (p c); [exact IH|reflexivity].
Qed.

Lemma drop_while_all (p : char -> bool) (a : str) :
  Forall (fun c => p c = true) a -> drop_while p a = [].
Proof. induction 1 as [|c a Hc _ IH]; cbn; [|rewrite Hc]; auto. Qed.

(* ================================================================== *)
(** ** [re.sub] scanning *)

Lemma sub_empty_cons (re : regex) (c : char) (s : str) :
  sub_empty re O (c :: s)
  = match match_here re (c :: s) with
    | Some rest =>
        match (length (c :: s) - length rest)%nat with
        | S k => sub_empty re k s
        | O => c :: sub_empty re O s
        end
    | None => c :: sub_empty re O s
    end.
Proof. reflexivity. Qed.

Lemma sub_empty_skip (re : regex) (pre s : str) :
  sub_empty re (length pre) (pre ++ s) = sub_empty re O s.
Proof. induction pre as [|c pre IH]; [reflexivity|exact IH]. Qed.

Lemma strip_ansi_cons_plain (c : char) (s : str) :
  c <> ESC -> strip_ansi (c :: s) = c :: strip_ansi s.
Proof.
  intros Hc. unfold strip_ansi. rewrite sub_empty_cons.
  assert (Hm : match_here ansi_escape (c :: s) = None).
  { unfold ansi_escape. cbn [match_here].
    replace (in_range 27 27 c) with false; [reflexivity|].
    symmetry. unfold in_range, ESC in *.
    destruct (N.leb_spec 27 c), (N.leb_spec c 27); try reflexivity. lia. }
  rewrite Hm. reflexivity.
Qed.

(** A string without ESC has nothing to strip. *)
Lemma strip_ansi_plain (s : str) : ~ In ESC s -> strip_ansi s = s.
Proof.
  induction s as [|c s IH]; intros Hs; [reflexivity|].
  rewrite strip_ansi_cons_plain by (intros ->; apply Hs; left; reflexivity).
  rewrite IH; [reflexivity|]. intros H. apply Hs. right. assumption.
Qed.

(* ================================================================== *)
(** ** Color codes are escape sequences *)

Lemma lit_String (a : ascii) (s : string) :
  lit (String a s) = N_of_ascii a :: lit s.
Proof. reflexivity. Qed.

Lemma string_of_uint_params (d : Decimal.uint) :
  Forall is_param (lit (NilEmpty.string_of_uint d)).
Proof.
  induction d; cbn [NilEmpty.string_of_uint]; try rewrite lit_String;
    constructor; try assumption; reflexivity.
Qed.

Lemma str_of_int_params (z : Z) : 0 <= z -> Forall is_param (str_of_int z).
Proof.
  intros Hz. unfold str_of_int.
  destruct z as [|p|p]; [repeat constructor| |lia].
  cbn [Z.to_int NilZero.string_of_int]. unfold NilZero.string_of_uint.
  destruct (Pos.to_uint p) eqn:Hd; try (rewrite <- Hd);
    try apply string_of_uint_params.
  repeat constructor.
Qed.

Lemma color_code_shape (r g b : Z) :
  0 <= r -> 0 <= g -> 0 <= b ->
  exists params, Forall is_param params
                 /\ color_code r g b = ESC :: 91%N :: params ++ [109%N].
Proof.
  intros Hr Hg Hb.
  exists (lit "38;2;" ++ str_of_int r ++ lit ";" ++ str_of_int g
                    ++ lit ";" ++ str_of_int b).
  split.
  - repeat (apply Forall_app; split);
      try (apply str_of_int_params; assumption);
      repeat constructor.
  - unfold color_code. rewrite <- !app_assoc. reflexivity.
Qed.

Lemma scan_escape_code (params rest : str) :
  Forall is_param params ->
  scan_escape (ESC :: 91%N :: params ++ 109%N :: rest) = Some rest.
Proof.
  intros Hp. unfold scan_escape.
  change (in_range 27 27 ESC && in_range 64 95 91) with true. cbv iota.
  rewrite drop_while_app, (drop_while_all (in_range 48 63) params Hp).
  reflexivity.
Qed.

(** Stripping deletes a color code and keeps the plain character after
    it. *)
Lemma strip_ansi_code_cons (code : str) (c : char) (s : str) :
  is_color_code code -> c <> ESC ->
  strip_ansi (code ++ c :: s) = c :: strip_ansi s.
Proof.
  intros (r & g & b & Hr & Hg & Hb & ->) Hc.
  destruct (color_code_shape r g b Hr Hg Hb) as (params & Hp & ->).
  rewrite <- strip_ansi_cons_plain by assumption.
  unfold strip_ansi at 1. cbn [app]. rewrite sub_empty_cons.
  rewrite match_ansi_escape.
  replace ((params ++ [109%N]) ++ c :: s) with (params ++ 109%N :: c :: s)
    by (rewrite <- app_assoc; reflexivity).
  rewrite scan_escape_code by assumption.
  match goal with
  | |- context [(?a - ?b)%nat] =>
      replace (a - b)%nat with (S (length (91%N :: params ++ [109%N])))
  end.
  - pose proof (sub_empty_skip ansi_escape (91%N :: params ++ [109%N]) (c :: s))
      as Hskip.
    cbn [app] in Hskip. rewrite <- app_assoc in Hskip. exact Hskip.
  - cbn [length]. rewrite !length_app. cbn [length]. lia.
Qed.

(* ================================================================== *)
(** ** [apply_gradient] on a non-empty gradient *)

Lemma getitem_nth {A : Type} (xs : list A) (k : Z) (d : A) :
  0 <= k < len xs -> getitem xs k = Ok (nth (Z.to_nat k) xs d).
Proof.
  intros Hk. unfold getitem, len in *. cbv zeta.
  assert (Hneg : (k <? 0) = false) by (apply Z.ltb_ge; lia).
  rewrite !Hneg.
  rewrite (nth_error_nth' xs d) by lia. reflexivity.
Qed.

Lemma len_pos {A : Type} (xs : list A) : xs <> [] -> 0 < len xs.
Proof. destruct xs; [congruence|]. intros _. unfold len. simpl. lia. Qed.

Lemma gradient_pieces_ok (gradient : list str) (line_number : Z) :
  gradient <> [] ->
  forall (text : str) (i : nat),
  exists pieces,
    gradient_pieces (Z.of_nat i) text gradient line_number = Ok pieces
    /\ length pieces = length text
    /\ forall k ch, nth_error text k = Some ch ->
         nth_error pieces k
         = Some (color_at gradient line_number (i + k) ++ [ch]).
Proof.
  intros Hne. pose proof (len_pos gradient Hne) as Hlen.
  induction text as [|c text IH]; intros i.
  - exists []. repeat split. intros [|k] ch; discriminate.
  - destruct (IH (S i)) as (rest & Hrest & Hl & Hnth).
    exists ((color_at gradient line_number i ++ [c]) :: rest).
    cbn [gradient_pieces]. unfold mod_.
    replace (len gradient =? 0) with false by (symmetry; apply Z.eqb_neq; lia).
    cbn [bind].
    rewrite (getitem_nth gradient _ [])
      by (apply Z.mod_pos_bound; assumption).
    cbn [bind].
    replace (Z.of_nat i + 1) with (Z.of_nat (S i)) by lia.
    rewrite Hrest. cbn [bind]. repeat split.
    + cbn [length]. congruence.
    + intros [|k] ch Hk; cbn [nth_error] in *.
      * injection Hk as <-. rewrite Nat.add_0_r. reflexivity.
      * rewrite (Hnth k ch Hk). do 3 f_equal. lia.
Qed.

Lemma color_at_In (gradient : list str) (line_number : Z) (i : nat) :
  gradient <> [] -> In (color_at gradient line_number i) gradient.
Proof.
  intros Hne. pose proof (len_pos gradient Hne) as Hlen.
  unfold color_at. apply nth_In.
  pose proof (Z.mod_pos_bound (Z.of_nat i + line_number) (len gradient) Hlen).
  unfold len in *. lia.
Qed.

(** Stripping a line painted with color codes gives the line back. *)
Lemma strip_painted (gradient : list str) (line_number : Z) :
  gradient <> [] -> Forall is_color_code gradient ->
  forall (text : str) (i : nat) (pieces : list str),
    ~ In ESC text ->
    length pieces = length text ->
    (forall k ch, nth_error text k = Some ch ->
       nth_error pieces k
       = Some (color_at gradient line_number (i + k) ++ [ch])) ->
    strip_ansi (concat pieces) = text.
Proof.
  intros Hne Hcodes. rewrite Forall_forall in Hcodes.
  induction text as [|c text IH]; intros i pieces Hesc Hl Hnth.
  - destruct pieces; [reflexivity|discriminate].
  - destruct pieces as [|p pieces]; [discriminate|].
    pose proof (Hnth O c eq_refl) as H0. cbn [nth_error] in H0.
    injection H0 as ->. cbn [concat]. rewrite <- app_assoc. cbn [app].
    rewrite strip_ansi_code_cons.
    + f_equal. apply IH with (i := S i).
      * intros H. apply Hesc. right. assumption.
      * cbn [length] in Hl. congruence.
      * intros k ch Hk. replace (S i + k)%nat with (i + S k)%nat by lia.
        apply (Hnth (S k) ch Hk).
    + apply Hcodes, color_at_In. assumption.
    + intros ->. apply Hesc. left. reflexivity.
Qed.

(* ================================================================== *)
(** ** Padding and visible width *)

Lemma space_not_ESC : space <> ESC.
Proof. discriminate. Qed.

Lemma spaces_plain (k : nat) : ~ In ESC (repeat space k).
Proof. intros H. apply repeat_spec in H. discriminate. Qed.

Lemma strip_ansi_spaces_left (k : nat) (s : str) :
  strip_ansi (repeat space k ++ s) = repeat space k ++ strip_ansi s.
Proof.
  induction k as [|k IH]; [reflexivity|]. cbn [repeat app].
  rewrite strip_ansi_cons_plain by exact space_not_ESC. congruence.
Qed.

Lemma drop_while_params_spaces (k : nat) :
  drop_while (in_range 48 63) (repeat space k) = repeat space k.
Proof. destruct k; reflexivity. Qed.

Lemma drop_while_inter_spaces (k : nat) :
  drop_while (in_range 32 47) (repeat space k) = [].
Proof. induction k; [reflexivity|exact IHk]. Qed.

(** Spaces after a string neither complete nor extend an escape
    sequence. *)
Lemma scan_escape_spaces_right (s : str) (k : nat) :
  scan_escape (s ++ repeat space k)
  = option_map (fun rest => rest ++ repeat space k) (scan_escape s).
Proof.
  destruct s as [|c0 [|c1 s2]].
  - destruct k as [|[|k]]; reflexivity.
  - destruct k as [|k]; [reflexivity|]. cbn [app repeat scan_escape].
    change (in_range 64 95 space) with false.
    rewrite andb_false_r. reflexivity.
  - cbn [app scan_escape].
    destruct (in_range 27 27 c0 && in_range 64 95 c1); [|reflexivity].
    rewrite drop_while_app.
    destruct (drop_while (in_range 48 63) s2) as [|a r].
    + rewrite drop_while_params_spaces, drop_while_inter_spaces. reflexivity.
    + rewrite drop_while_app.
      destruct (drop_while (in_range 32 47) (a :: r)) as [|f r'].
      * rewrite drop_while_inter_spaces. reflexivity.
      * cbn [app]. destruct (in_range 64 126 f); reflexivity.
Qed.

Lemma sub_empty_spaces_right (k : nat) (s : str) :
  forall skip, (skip <= length s)%nat ->
    sub_empty ansi_escape skip (s ++ repeat space k)
    = sub_empty ansi_escape skip s ++ repeat space k.
Proof.
  induction s as [|c s IH]; intros skip Hskip.
  - replace skip with O by (simpl in Hskip; lia). cbn [app].
    apply (strip_ansi_plain (repeat space k)), spaces_plain.
  - destruct skip as [|skip].
    + cbn [app]. rewrite !sub_empty_cons, !match_ansi_escape.
      change (c :: s ++ repeat space k) with ((c :: s) ++ repeat space k).
      rewrite scan_escape_spaces_right.
      destruct (scan_escape (c :: s)) as [rest|]; cbn [option_map].
      * replace (length ((c :: s) ++ repeat space k)
                 - length (rest ++ repeat space k))%nat
          with (length (c :: s) - length rest)%nat
          by (rewrite !length_app; lia).
        destruct (length (c :: s) - length rest)%nat as [|j] eqn:Hj.
        -- cbn [app]. f_equal. apply IH. lia.
        -- apply IH. cbn [length] in Hj. lia.
      * cbn [app]. f_equal. apply IH. lia.
    + cbn [app sub_empty]. apply IH. cbn [length] in Hskip. lia.
Qed.

Lemma strip_ansi_padded (l r : nat) (s : str) :
  strip_ansi (repeat space l ++ s ++ repeat space r)
  = repeat space l ++ strip_ansi s ++ repeat space r.
Proof.
  rewrite strip_ansi_spaces_left. f_equal.
  apply sub_empty_spaces_right. lia.
Qed.

Section LayoutFacts.

Variable classify : char -> option width_class.

Lemma wcwidth_range (c : char) : 0 <= wcwidth classify c <= 2.
Proof. unfold wcwidth. destruct (classify c) as [[]|]; lia. Qed.

Lemma wcswidth_app (a b : str) :
  wcswidth classify (a ++ b) = wcswidth classify a + wcswidth classify b.
Proof. induction a as [|c a IH]; cbn [app wcswidth]; lia. Qed.

Lemma wcswidth_range (s : str) :
  0 <= wcswidth classify s <= 2 * len s.
Proof.
  unfold len. induction s as [|c s IH]; cbn [wcswidth length]; [lia|].
  pose proof (wcwidth_range c). lia.
Qed.

Lemma wcswidth_spaces (k : nat) :
  wcwidth classify space = 1 ->
  wcswidth classify (repeat space k) = Z.of_nat k.
Proof.
  intros Hsp. induction k as [|k IH]; cbn [repeat wcswidth]; lia.
Qed.

End LayoutFacts.

(* ================================================================== *)
(** ** Properties of the rendering core *)

(** C1: on at least two key colors and any step count,
    [generate_gradient] returns a gradient of exactly
    [segments * steps_per_segment] entries, with
    [segments = len(colors) - 1] and
    [steps_per_segment = max(1, steps // segments)]; the gradient is
    never empty. *)
Theorem generate_gradient_length (colors : list color) (steps : Z) :
  2 <= len colors -> Forall valid_color colors ->
  exists gradient,
    generate_gradient colors steps = Ok gradient
    /\ len gradient = (len colors - 1) * Z.max 1 (steps / (len colors - 1))
    /\ 1 <= len gradient.
Proof.
  intros Hlen Hvalid.
  destruct (generate_gradient_ok colors steps Hlen Hvalid)
    as (gradient & Hrun & _ & Hsize).
  exists gradient. repeat split; [assumption..|].
  rewrite Hsize. nia.
Qed.

Lemma generate_gradient_length_banner :
  2 <= len GRADIENT_COLORS /\ Forall valid_color GRADIENT_COLORS /\
  exists gradient,
    generate_gradient GRADIENT_COLORS 80 = Ok gradient
    /\ len gradient
       = (len GRADIENT_COLORS - 1)
         * Z.max 1 (80 / (len GRADIENT_COLORS - 1))
    /\ 1 <= len gradient.
Proof.
  assert (H1 : 2 <= len GRADIENT_COLORS) by (vm_compute; discriminate).
  assert (H2 : Forall valid_color GRADIENT_COLORS).
  { repeat constructor; vm_compute; discriminate. }
  split; [exact H1|]. split; [exact H2|].
  exact (generate_gradient_length GRADIENT_COLORS 80 H1 H2).
Defined.

(** C2, as stated, fails: on the empty list of key colors
    [generate_gradient] raises nothing. *)
Lemma generate_gradient_empty_no_error :
  ~ (exists e, generate_gradient [] 10 = Raise e).
Proof. intros (e & He). vm_compute in He. discriminate He. Qed.

(** C2 (amended): with no key color [generate_gradient] returns the
    empty gradient, and with exactly one key color it raises
    [ZeroDivisionError], whatever the step count. *)
Theorem generate_gradient_too_few_colors (steps : Z) :
  generate_gradient [] steps = Ok []
  /\ forall c, generate_gradient [c] steps = Raise ZeroDivisionError.
Proof. split; [|intros c]; reflexivity. Qed.

(** C3: on a non-empty gradient [apply_gradient] puts
    [gradient[(i + n) mod len(gradient)]] right before the character at
    position [i] of a line rendered with index [n], keeps the characters
    in order, and so gives two positions whose [i + n] agree modulo
    [len(gradient)] the same color code. *)
Theorem apply_gradient_diagonal (gradient : list str) :
  gradient <> [] ->
  (forall text n,
     exists pieces,
       apply_gradient text gradient n = Ok (concat pieces)
       /\ length pieces = length text
       /\ forall i ch, nth_error text i = Some ch ->
            nth_error pieces i = Some (color_at gradient n i ++ [ch]))
  /\ (forall i1 line1 i2 line2,
        (Z.of_nat i1 + line1) mod len gradient
        = (Z.of_nat i2 + line2) mod len gradient ->
        color_at gradient line1 i1 = color_at gradient line2 i2).
Proof.
  intros Hne. split.
  - intros text n.
    destruct (gradient_pieces_ok gradient n Hne text O)
      as (pieces & Hrun & Hl & Hnth).
    exists pieces. unfold apply_gradient. change 0 with (Z.of_nat 0).
    rewrite Hrun. repeat split; assumption.
  - intros i1 line1 i2 line2 Hmod. unfold color_at. rewrite Hmod. reflexivity.
Qed.

Lemma apply_gradient_diagonal_three_colors :
  [lit "A"; lit "B"; lit "C"] <> []
  /\ color_at [lit "A"; lit "B"; lit "C"] 2 1
     = color_at [lit "A"; lit "B"; lit "C"] 0 0.
Proof.
  assert (Hne : [lit "A"; lit "B"; lit "C"] <> []) by discriminate.
  split; [exact Hne|].
  apply (proj2 (apply_gradient_diagonal _ Hne) 1%nat 2 0%nat 0).
  reflexivity.
Defined.

(** C5, as stated, fails: the black-to-white gradient in 10 steps does
    not have 9 entries. *)
Lemma black_white_not_nine :
  ~ (exists gradient,
       generate_gradient [(0, 0, 0); (255, 255, 255)] 10 = Ok gradient
       /\ length gradient = 9%nat).
Proof.
  intros (gradient & Hrun & Hl). vm_compute in Hrun.
  injection Hrun as <-. discriminate Hl.
Qed.

(** C5 (amended): [generate_gradient([(0,0,0),(255,255,255)], 10)]
    yields exactly 10 gray color codes whose channel values
    0, 25, 51, 76, 102, 127, 153, 178, 204, 229 ascend strictly from
    black to near-white. *)
Theorem black_white_gradient :
  generate_gradient [(0, 0, 0); (255, 255, 255)] 10
  = Ok (map gray_code [0; 25; 51; 76; 102; 127; 153; 178; 204; 229])
  /\ StronglySorted Z.lt [0; 25; 51; 76; 102; 127; 153; 178; 204; 229]
  /\ length (map gray_code [0; 25; 51; 76; 102; 127; 153; 178; 204; 229])
     = 10%nat.
Proof.
  split; [vm_compute; reflexivity|]. split; [|reflexivity].
  repeat (constructor; [|repeat (constructor; [reflexivity|])]);
    constructor.
Qed.

(** C6, as stated, fails: deleting an escape sequence can join a stray
    ESC to the text after it, which a second pass then deletes. *)
Lemma strip_ansi_not_idempotent :
  strip_ansi (strip_ansi (ESC :: ESC :: lit "[m[m"))
  <> strip_ansi (ESC :: ESC :: lit "[m[m").
Proof. vm_compute. discriminate. Qed.

Lemma strip_ansi_plain_app (a b : str) :
  ~ In ESC a -> strip_ansi (a ++ b) = a ++ strip_ansi b.
Proof.
  induction a as [|c a IH]; intros Ha; [reflexivity|]. cbn [app].
  rewrite strip_ansi_cons_plain by (intros ->; apply Ha; left; reflexivity).
  f_equal. apply IH. intros H. apply Ha. right. exact H.
Qed.

Lemma drop_while_prefix (p : char -> bool) (a b : str) :
  Forall (fun c => p c = true) a -> drop_while p (a ++ b) = drop_while p b.
Proof. intros Ha. rewrite drop_while_app, drop_while_all by exact Ha. reflexivity. Qed.

Lemma drop_while_split (p : char -> bool) (s : str) :
  exists a, s = a ++ drop_while p s /\ Forall (fun c => p c = true) a.
Proof.
  induction s as [|c s (a & Hs & Ha)]; [exists []; auto|].
  cbn [drop_while]. destruct (p c) eqn:Hc.
  - exists (c :: a). cbn [app]. split; [congruence|auto].
  - exists []. auto.
Qed.

Lemma drop_while_head (p : char -> bool) (s : str) (f : char) (r : str) :
  drop_while p s = f :: r -> p f = false.
Proof.
  induction s as [|c s IH]; cbn [drop_while]; [discriminate|].
  destruct (p c) eqn:Hc; [exact IH|]. intros [= <- _]. exact Hc.
Qed.

Lemma drop_while_fixed (p : char -> bool) (x : str) :
  (forall f r, x = f :: r -> p f = false) -> drop_while p x = x.
Proof.
  destruct x as [|f r]; [reflexivity|]. intros H. cbn [drop_while].
  rewrite (H f r eq_refl). reflexivity.
Qed.

Lemma drop_while_length (p : char -> bool) (s : str) :
  (length (drop_while p s) <= length s)%nat.
Proof.
  induction s as [|c s IH]; cbn [drop_while length]; [lia|].
  destruct (p c); cbn [length]; lia.
Qed.

Lemma scan_escape_shorter (s rest : str) :
  scan_escape s = Some rest -> (length rest < length s)%nat.
Proof.
  unfold scan_escape. destruct s as [|c0 [|c1 s2]]; try discriminate.
  destruct (in_range 27 27 c0 && in_range 64 95 c1); [|discriminate].
  pose proof (drop_while_length (in_range 48 63) s2) as H1.
  pose proof (drop_while_length (in_range 32 47)
                (drop_while (in_range 48 63) s2)) as H2.
  destruct (drop_while (in_range 32 47) (drop_while (in_range 48 63) s2))
    as [|f r]; [discriminate|].
  destruct (in_range 64 126 f); [|discriminate].
  intros [= <-]. cbn [length] in *. lia.
Qed.

Lemma scan_escape_plain_head (c : char) (s : str) :
  c <> ESC -> scan_escape (c :: s) = None.
Proof.
  intros Hc. unfold scan_escape. destruct s as [|c1 s2]; [reflexivity|].
  replace (in_range 27 27 c) with false; [reflexivity|].
  symmetry. unfold in_range, ESC in *.
  destruct (N.leb_spec 27 c), (N.leb_spec c 27); try reflexivity. lia.
Qed.

(** Where no escape sequence begins, stripping keeps the first
    character. *)
Lemma strip_ansi_head_kept (c : char) (s : str) :
  scan_escape (c :: s) = None -> strip_ansi (c :: s) = c :: strip_ansi s.
Proof.
  intros H. unfold strip_ansi. rewrite sub_empty_cons, match_ansi_escape, H.
  reflexivity.
Qed.

Lemma class_run_plain (lo hi : char) (a : str) :
  (27 < lo)%N -> Forall (fun c => in_range lo hi c = true) a -> ~ In ESC a.
Proof.
  intros Hlo Ha Hin. rewrite Forall_forall in Ha. specialize (Ha _ Hin).
  unfold in_range, ESC in Ha. apply andb_true_iff in Ha.
  destruct Ha as [H1 _]. apply N.leb_le in H1. lia.
Qed.

(** A stray ESC stays stray after stripping what follows it, when no
    complete sequence stands right behind its partial sequence. *)
Lemma stray_stays_stray (t : str) :
  scan_escape (ESC :: t) = None -> scan_escape (after_partial t) = None ->
  scan_escape (ESC :: strip_ansi t) = None.
Proof.
  intros Hstray Hbehind. destruct t as [|c1 t]; [reflexivity|].
  cbn [after_partial] in Hbehind.
  destruct (in_range 64 95 c1) eqn:Hc1.
  - assert (Hc1e : c1 <> ESC).
    { intros ->. discriminate Hc1. }
    rewrite strip_ansi_cons_plain by exact Hc1e.
    destruct (drop_while_split (in_range 48 63) t) as (a & Ht & Ha).
    set (P := drop_while (in_range 48 63) t) in *.
    destruct (drop_while_split (in_range 32 47) P) as (b & HP & Hb).
    set (Q := drop_while (in_range 32 47) P) in *.
    assert (Hstrip : strip_ansi t = a ++ b ++ strip_ansi Q).
    { rewrite Ht, HP.
      rewrite strip_ansi_plain_app
        by (apply (class_run_plain 48 63)%N; [lia|exact Ha]).
      rewrite strip_ansi_plain_app
        by (apply (class_run_plain 32 47)%N; [lia|exact Hb]).
      reflexivity. }
    assert (Hfinal : match Q with
                     | f :: _ => in_range 64 126 f = false
                     | [] => True
                     end).
    { unfold scan_escape in Hstray. rewrite Hc1 in Hstray.
      change (in_range 27 27 ESC) with true in Hstray. cbn [andb] in Hstray.
      fold P in Hstray. fold Q in Hstray.
      destruct Q as [|f r]; [exact I|].
      destruct (in_range 64 126 f); [discriminate|reflexivity]. }
    assert (HSQ : strip_ansi Q = match Q with
                                 | f :: r => f :: strip_ansi r
                                 | [] => []
                                 end).
    { destruct Q as [|f r]; [reflexivity|].
      apply strip_ansi_head_kept. exact Hbehind. }
    assert (HheadP : forall f r, b ++ strip_ansi Q = f :: r ->
                                 in_range 48 63 f = false).
    { intros f r Hfr. destruct b as [|b0 b'].
      - cbn [app] in HP, Hfr. rewrite HSQ in Hfr.
        destruct Q as [|f' r'] eqn:HQ; [discriminate|].
        injection Hfr as <- _. apply (drop_while_head _ t f' r').
        fold P. rewrite HP. reflexivity.
      - cbn [app] in Hfr. injection Hfr as <- _.
        apply (drop_while_head _ t b0 (b' ++ Q)). fold P. rewrite HP.
        reflexivity. }
    assert (HheadQ : forall f r, strip_ansi Q = f :: r ->
                                 in_range 32 47 f = false).
    { intros f r Hfr. rewrite HSQ in Hfr.
      destruct Q as [|f' r'] eqn:HQ; [discriminate|].
      injection Hfr as <- _. apply (drop_while_head _ P f' r'). exact HQ. }
    unfold scan_escape. rewrite Hc1.
    change (in_range 27 27 ESC) with true. cbn [andb].
    rewrite Hstrip, (drop_while_prefix (in_range 48 63) a) by exact Ha.
    rewrite (drop_while_fixed (in_range 48 63)) by exact HheadP.
    rewrite (drop_while_prefix (in_range 32 47) b) by exact Hb.
    rewrite (drop_while_fixed (in_range 32 47)) by exact HheadQ.
    rewrite HSQ. destruct Q as [|f r]; [reflexivity|].
    rewrite Hfinal. reflexivity.
  - rewrite strip_ansi_head_kept by exact Hbehind.
    unfold scan_escape. rewrite Hc1, andb_false_r. reflexivity.
Qed.

Lemma no_sequence_behind_stray_tail (c : char) (s : str) :
  no_sequence_behind_stray (c :: s) -> no_sequence_behind_stray s.
Proof. intros H pre t ->. apply (H (c :: pre) t). reflexivity. Qed.

(** After one pass over such a string no escape sequence is left. *)
Lemma strip_ansi_leaves_no_sequence (s : str) :
  no_sequence_behind_stray s ->
  forall skip pre x,
    sub_empty ansi_escape skip s = pre ++ x -> scan_escape x = None.
Proof.
  induction s as [|c s IH]; intros Hs skip pre x Hx.
  - cbn [sub_empty] in Hx. symmetry in Hx.
    apply app_eq_nil in Hx. destruct Hx as [_ ->]. reflexivity.
  - pose proof (no_sequence_behind_stray_tail c s Hs) as Hs'.
    destruct skip as [|skip]; [|exact (IH Hs' skip pre x Hx)].
    rewrite sub_empty_cons, match_ansi_escape in Hx.
    destruct (scan_escape (c :: s)) as [rest|] eqn:Hscan.
    + pose proof (scan_escape_shorter _ _ Hscan) as Hlen.
      destruct (length (c :: s) - length rest)%nat as [|k] eqn:Hk; [lia|].
      exact (IH Hs' k pre x Hx).
    + destruct pre as [|c' pre]; cbn [app] in Hx.
      * subst x. fold (strip_ansi s).
        destruct (N.eq_dec c ESC) as [->|Hc];
          [|apply scan_escape_plain_head; exact Hc].
        apply stray_stays_stray; [exact Hscan|].
        rewrite <- match_ansi_escape. apply (Hs [] s eq_refl).
        rewrite match_ansi_escape. exact Hscan.
      * injection Hx as _ Hx. exact (IH Hs' O pre x Hx).
Qed.

Lemma strip_ansi_no_sequence (u : str) :
  (forall pre x, u = pre ++ x -> scan_escape x = None) -> strip_ansi u = u.
Proof.
  induction u as [|c u IH]; intros Hu; [reflexivity|].
  rewrite strip_ansi_head_kept by (apply (Hu [] (c :: u)); reflexivity).
  f_equal. apply IH. intros pre x ->. apply (Hu (c :: pre) x). reflexivity.
Qed.

Lemma no_sequence_behind_stray_checked (s : str) :
  no_sequence_behind_stray_check s = true -> no_sequence_behind_stray s.
Proof.
  induction s as [|c s IH]; intros Hcheck pre t Hs Hstray.
  - destruct pre; discriminate Hs.
  - cbn [no_sequence_behind_stray_check] in Hcheck.
    apply andb_true_iff in Hcheck. destruct Hcheck as [Hhere Hrest].
    destruct pre as [|c' pre]; cbn [app] in Hs.
    + injection Hs as -> ->. rewrite N.eqb_refl, Hstray in Hhere.
      destruct (match_here ansi_escape (after_partial t));
        [discriminate|reflexivity].
    + injection Hs as _ ->. exact (IH Hrest pre t eq_refl Hstray).
Qed.

(** C6 (amended): stripping is idempotent on every string in which no
    stray ESC (one that begins no complete escape sequence) has a
    complete escape sequence right behind its partial sequence, that
    is, behind the byte of [@-_] after it and the parameter and
    intermediate bytes that follow. *)
Theorem strip_ansi_idempotent (s : str) :
  no_sequence_behind_stray s ->
  strip_ansi (strip_ansi s) = strip_ansi s.
Proof.
  intros Hs. apply strip_ansi_no_sequence. intros pre x Hx.
  exact (strip_ansi_leaves_no_sequence s Hs O pre x Hx).
Qed.

Lemma strip_ansi_idempotent_stray :
  no_sequence_behind_stray
    (color_code 255 20 147 ++ lit "ab" ++ ESC :: lit "[31")
  /\ strip_ansi (strip_ansi
                   (color_code 255 20 147 ++ lit "ab" ++ ESC :: lit "[31"))
     = strip_ansi (color_code 255 20 147 ++ lit "ab" ++ ESC :: lit "[31").
Proof.
  assert (H : no_sequence_behind_stray
                (color_code 255 20 147 ++ lit "ab" ++ ESC :: lit "[31"))
    by (apply no_sequence_behind_stray_checked; vm_compute; reflexivity).
  split; [exact H|]. exact (strip_ansi_idempotent _ H).
Defined.

(** C9: for a line without ESC and a gradient generated from at least
    two key colors, stripping the colored line gives the line back. *)
Theorem strip_apply_gradient (text : str) (colors : list color)
    (steps : Z) (gradient : list str) (line_number : Z) :
  ~ In ESC text ->
  2 <= len colors -> Forall valid_color colors ->
  generate_gradient colors steps = Ok gradient ->
  gradient <> []
  /\ exists colored,
       apply_gradient text gradient line_number = Ok colored
       /\ strip_ansi colored = text.
Proof.
  intros Hesc Hlen Hvalid Hrun.
  destruct (generate_gradient_ok colors steps Hlen Hvalid)
    as (g & Hrun' & Hcodes & Hsize).
  rewrite Hrun in Hrun'. injection Hrun' as <-.
  assert (Hne : gradient <> []).
  { intros ->. unfold len in Hsize at 1. simpl in Hsize. nia. }
  split; [exact Hne|].
  destruct (gradient_pieces_ok gradient line_number Hne text O)
    as (pieces & Hp & Hl & Hnth).
  exists (concat pieces). unfold apply_gradient. change 0 with (Z.of_nat 0).
  rewrite Hp. split; [reflexivity|].
  apply strip_painted with (gradient := gradient)
                           (line_number := line_number) (i := O);
    assumption.
Qed.

Lemma strip_apply_gradient_black_white :
  exists gradient,
    generate_gradient [(0, 0, 0); (255, 255, 255)] 4 = Ok gradient
    /\ gradient <> []
    /\ exists colored,
         apply_gradient (lit "ChromaCat") gradient 3 = Ok colored
         /\ strip_ansi colored = lit "ChromaCat".
Proof.
  eexists. split; [vm_compute; reflexivity|].
  apply (strip_apply_gradient (lit "ChromaCat")
           [(0, 0, 0); (255, 255, 255)] 4 _ 3).
  - vm_compute. intuition discriminate.
  - vm_compute. discriminate.
  - repeat constructor; vm_compute; discriminate.
  - vm_compute. reflexivity.
Defined.

(** C10: with an empty gradient [apply_gradient] returns the empty
    string for an empty line and raises [ZeroDivisionError] for every
    other line; with a non-empty gradient it always returns. *)
Theorem apply_gradient_totality (line_number : Z) :
  apply_gradient [] [] line_number = Ok []
  /\ (forall text, text <> [] ->
        apply_gradient text [] line_number = Raise ZeroDivisionError)
  /\ (forall text gradient, gradient <> [] ->
        exists colored, apply_gradient text gradient line_number = Ok colored).
Proof.
  split; [reflexivity|]. split.
  - intros [|c text] Hne; [congruence|reflexivity].
  - intros text gradient Hne.
    destruct (gradient_pieces_ok gradient line_number Hne text O)
      as (pieces & Hp & _).
    exists (concat pieces). unfold apply_gradient. change 0 with (Z.of_nat 0).
    rewrite Hp. reflexivity.
Qed.

Lemma apply_gradient_totality_examples :
  apply_gradient (lit "hi") [] 5 = Raise ZeroDivisionError
  /\ exists colored,
       apply_gradient (lit "hi") [gray_code 0; gray_code 255] 5 = Ok colored.
Proof.
  destruct (apply_gradient_totality 5) as (_ & Hempty & Htotal).
  split.
  - apply Hempty. discriminate.
  - apply Htotal. discriminate.
Defined.

Lemma repeat_char_ok (c : char) (n : Z) :
  index_min <= n -> repeat_char c n = Ok (repeat c (Z.to_nat n)).
Proof.
  intros Hn. unfold repeat_char.
  replace (n <? index_min) with false by (symmetry; apply Z.ltb_ge; lia).
  reflexivity.
Qed.

Section LayoutProperties.

Variable classify : char -> option width_class.

(** C4: when the visible width [v] of [s] is at most [w],
    [center_text(s, w)] is [s] between [max((w - v) // 2, 0)] spaces on
    the left and [w - left - v] spaces on the right, and its visible
    width is exactly [w]. *)
Theorem center_text_fills_width (s : str) (w : Z) :
  wcwidth classify space = 1 ->
  visible_width classify s <= w ->
  let v := visible_width classify s in
  let left := Z.max ((w - v) / 2) 0 in
  exists centered,
    center_text classify s w = Ok centered
    /\ centered = repeat space (Z.to_nat left) ++ s
                  ++ repeat space (Z.to_nat (w - left - v))
    /\ 0 <= left /\ 0 <= w - left - v
    /\ visible_width classify centered = w.
Proof.
  intros Hsp Hv v left. unfold visible_width in *.
  assert (Hleft : 0 <= left) by (unfold left; lia).
  assert (Hright : 0 <= w - left - v).
  { unfold left. fold v in Hv.
    assert ((w - v) / 2 <= w - v) by (apply Z.div_le_upper_bound; lia).
    lia. }
  eexists. split.
  - unfold center_text. fold v. fold left.
    rewrite !repeat_char_ok by (unfold index_min; lia). reflexivity.
  - split; [reflexivity|]. split; [exact Hleft|]. split; [exact Hright|].
    rewrite strip_ansi_padded, !wcswidth_app, !wcswidth_spaces by exact Hsp.
    fold v. rewrite !Z2Nat.id by assumption. lia.
Qed.

(** C7 (amended): when the visible width [v] of [line] exceeds [width],
    the left padding is 0; [center_text] returns [line] as it is, with
    nothing cut off, as long as [width - v] is not below the index type,
    and raises [OverflowError] when it is. *)
Theorem center_text_overflow (line : str) (width : Z) :
  visible_width classify line > width ->
  Z.max ((width - visible_width classify line) / 2) 0 = 0
  /\ (index_min <= width - visible_width classify line ->
      center_text classify line width = Ok line)
  /\ (width - visible_width classify line < index_min ->
      center_text classify line width = Raise OverflowError).
Proof.
  unfold visible_width. intros Hv.
  set (v := wcswidth classify (strip_ansi line)) in *.
  assert (Hl : Z.max ((width - v) / 2) 0 = 0).
  { assert ((width - v) / 2 < 0) by (apply Z.div_lt_upper_bound; lia).
    lia. }
  split; [exact Hl|]. unfold center_text. fold v. rewrite Hl.
  rewrite repeat_char_ok by (unfold index_min; lia).
  cbn [bind Z.to_nat repeat app]. split; intros Hw.
  - rewrite repeat_char_ok by lia. cbn [bind].
    replace (Z.to_nat (width - 0 - v)) with O by lia.
    cbn [repeat]. rewrite app_nil_r. reflexivity.
  - unfold repeat_char.
    replace (width - 0 - v <? index_min) with true
      by (symmetry; apply Z.ltb_lt; lia).
    reflexivity.
Qed.

End LayoutProperties.

Lemma center_text_fills_width_sample :
  wcwidth sample_classify space = 1
  /\ visible_width sample_classify
       (color_code 255 20 147 ++ [20013%N; 97%N]) <= 8
  /\ exists centered,
       center_text sample_classify
         (color_code 255 20 147 ++ [20013%N; 97%N]) 8 = Ok centered
       /\ visible_width sample_classify centered = 8.
Proof.
  assert (H1 : wcwidth sample_classify space = 1) by reflexivity.
  assert (H2 : visible_width sample_classify
                 (color_code 255 20 147 ++ [20013%N; 97%N]) <= 8)
    by (vm_compute; discriminate).
  split; [exact H1|]. split; [exact H2|].
  destruct (center_text_fills_width sample_classify
              (color_code 255 20 147 ++ [20013%N; 97%N]) 8 H1 H2)
    as (centered & Hrun & _ & _ & _ & Hwidth).
  exists centered. split; [exact Hrun|exact Hwidth].
Defined.

(** C7, as stated, fails: with a width below the index type the count
    of the right padding cannot be taken and [center_text] raises. *)
Lemma center_text_overflow_raises :
  visible_width sample_classify (lit "hi") > - 2 ^ 63
  /\ center_text sample_classify (lit "hi") (- 2 ^ 63) = Raise OverflowError.
Proof. split; reflexivity. Qed.

Lemma center_text_overflow_sample :
  visible_width sample_classify (lit "ChromaCat") > 4
  /\ center_text sample_classify (lit "ChromaCat") 4 = Ok (lit "ChromaCat").
Proof.
  assert (H : visible_width sample_classify (lit "ChromaCat") > 4)
    by (vm_compute; reflexivity).
  split; [exact H|].
  apply (proj1 (proj2
    (center_text_overflow sample_classify (lit "ChromaCat") 4 H))).
  vm_compute. discriminate.
Defined.

(* ================================================================== *)
(** ** Further properties of [strip_ansi] *)

Lemma sub_empty_subseq (re : regex) (s : str) :
  forall skip, subseq (sub_empty re skip s) s.
Proof.
  induction s as [|c s IH]; intros skip; [constructor|].
  destruct skip as [|skip].
  - rewrite sub_empty_cons.
    destruct (match_here re (c :: s)) as [rest|].
    + destruct (length (c :: s) - length rest)%nat.
      * apply subseq_keep, IH.
      * apply subseq_drop, IH.
    + apply subseq_keep, IH.
  - cbn [sub_empty]. apply subseq_drop, IH.
Qed.

Lemma subseq_length (s t : str) : subseq s t -> (length s <= length t)%nat.
Proof. induction 1; cbn [length]; lia. Qed.

(** X1: stripping only deletes characters: the result is the input with
    some characters removed, the others in their order, so it is never
    longer than the input. *)
Theorem strip_ansi_only_deletes (s : str) :
  subseq (strip_ansi s) s /\ (length (strip_ansi s) <= length s)%nat.
Proof.
  assert (H : subseq (strip_ansi s) s) by apply sub_empty_subseq.
  split; [exact H|]. apply subseq_length, H.
Qed.

(** X2: text without ESC passes through unchanged, whatever follows
    it; in particular a string without ESC is returned as it is. *)
Theorem strip_ansi_keeps_plain_text (a b : str) :
  ~ In ESC a ->
  strip_ansi (a ++ b) = a ++ strip_ansi b /\ strip_ansi a = a.
Proof.
  intros Ha. split; [apply strip_ansi_plain_app, Ha|].
  rewrite <- (app_nil_r a) at 1. rewrite strip_ansi_plain_app by exact Ha.
  apply app_nil_r.
Qed.

Lemma strip_ansi_keeps_plain_text_sample :
  ~ In ESC (lit "v1.2 ")
  /\ strip_ansi (lit "v1.2 " ++ color_code 1 2 3 ++ lit "ok")
     = lit "v1.2 " ++ strip_ansi (color_code 1 2 3 ++ lit "ok").
Proof.
  assert (H : ~ In ESC (lit "v1.2 ")) by (vm_compute; intuition discriminate).
  split; [exact H|].
  exact (proj1 (strip_ansi_keeps_plain_text (lit "v1.2 ")
                  (color_code 1 2 3 ++ lit "ok") H)).
Defined.

Lemma drop_while_stop (p q : char -> bool) (a : str) (f : char) (s : str) :
  (forall c, q c = true -> p c = false) ->
  Forall (fun c => q c = true) a -> p f = false ->
  drop_while p (a ++ f :: s) = a ++ f :: s.
Proof.
  intros Hpq Ha Hf. destruct Ha as [|c a Hc _]; cbn [app drop_while].
  - rewrite Hf. reflexivity.
  - rewrite (Hpq c Hc). reflexivity.
Qed.

Lemma in_range_above (lo hi lo' hi' c : char) :
  (hi' < lo)%N -> in_range lo hi c = true -> in_range lo' hi' c = false.
Proof.
  unfold in_range. intros Hlt Hc.
  apply andb_true_iff in Hc. destruct Hc as [H1 H2].
  apply N.leb_le in H1, H2. apply andb_false_iff. right.
  apply N.leb_gt. lia.
Qed.

Lemma scan_escape_sequence (q s : str) :
  escape_sequence q ->
  exists q', q = ESC :: q' /\ scan_escape (q ++ s) = Some s.
Proof.
  intros (c1 & params & inters & final & -> & Hc1 & Hp & Hi & Hf).
  eexists. split; [reflexivity|].
  cbn [app]. unfold scan_escape. rewrite Hc1.
  change (in_range 27 27 ESC) with true. cbn [andb].
  rewrite <- !app_assoc. cbn [app].
  rewrite (drop_while_prefix (in_range 48 63) params) by exact Hp.
  rewrite (drop_while_stop (in_range 48 63) (in_range 32 47)).
  - rewrite (drop_while_prefix (in_range 32 47) inters) by exact Hi.
    cbn [drop_while].
    rewrite (in_range_above 64 126 32 47 final)%N by (lia || assumption).
    rewrite Hf. reflexivity.
  - intros c Hc. apply (in_range_disjoint 32 47 48 63 c)%N; [lia|exact Hc].
  - exact Hi.
  - apply (in_range_above 64 126 48 63 final)%N; [lia|exact Hf].
Qed.

Lemma strip_ansi_escape_sequence (q s : str) :
  escape_sequence q -> strip_ansi (q ++ s) = strip_ansi s.
Proof.
  intros Hq. destruct (scan_escape_sequence q s Hq) as (q' & -> & Hscan).
  unfold strip_ansi. cbn [app] in *. rewrite sub_empty_cons.
  rewrite match_ansi_escape, Hscan.
  replace (length (ESC :: q' ++ s) - length s)%nat with (S (length q'))
    by (cbn [length]; rewrite length_app; lia).
  apply sub_empty_skip.
Qed.

(** X3: complete escape sequences (ESC, a byte of [@-_], parameter
    bytes, intermediate bytes, a final byte) at the front of a string are
    deleted whole; a string made of escape sequences only strips to the
    empty string. *)
Theorem strip_ansi_deletes_escape_sequences (qs : list str) (s : str) :
  Forall escape_sequence qs ->
  strip_ansi (concat qs ++ s) = strip_ansi s /\ strip_ansi (concat qs) = [].
Proof.
  intros Hqs.
  assert (H : forall t, strip_ansi (concat qs ++ t) = strip_ansi t).
  { induction Hqs as [|q qs Hq _ IH]; intros t; [reflexivity|].
    cbn [concat]. rewrite <- app_assoc.
    rewrite strip_ansi_escape_sequence by exact Hq. apply IH. }
  split; [apply H|].
  rewrite <- (app_nil_r (concat qs)). apply (H []).
Qed.

Lemma color_code_escape_sequence (code : str) :
  is_color_code code -> escape_sequence code.
Proof.
  intros (r & g & b & Hr & Hg & Hb & ->).
  destruct (color_code_shape r g b Hr Hg Hb) as (params & Hp & ->).
  exists 91%N, params, [], 109%N. repeat split; auto.
Qed.

Lemma strip_ansi_deletes_escape_sequences_sample :
  Forall escape_sequence [color_code 75 0 130; ESC :: lit "[0m"]
  /\ strip_ansi (concat [color_code 75 0 130; ESC :: lit "[0m"]) = [].
Proof.
  assert (H : Forall escape_sequence [color_code 75 0 130; ESC :: lit "[0m"]).
  { constructor; [|constructor; [|constructor]].
    - apply color_code_escape_sequence. exists 75, 0, 130.
      repeat split; try reflexivity; discriminate.
    - exists 91%N, [48%N], [], 109%N. repeat split; repeat constructor. }
  split; [exact H|].
  exact (proj2 (strip_ansi_deletes_escape_sequences _ [] H)).
Defined.

(* ================================================================== *)
(** ** Further properties of [generate_gradient] *)

(** X4: every entry of a gradient generated from valid key colors is a
    complete escape sequence, so it takes no room once stripped. *)
Theorem generate_gradient_entries_invisible (colors : list color)
    (steps : Z) (gradient : list str) :
  2 <= len colors -> Forall valid_color colors ->
  generate_gradient colors steps = Ok gradient ->
  Forall (fun code => escape_sequence code /\ strip_ansi code = []) gradient.
Proof.
  intros Hlen Hvalid Hrun.
  destruct (generate_gradient_ok colors steps Hlen Hvalid)
    as (g & Hrun' & Hcodes & _).
  rewrite Hrun in Hrun'. injection Hrun' as <-.
  eapply Forall_impl; [|exact Hcodes].
  intros code Hcode. apply color_code_escape_sequence in Hcode.
  split; [exact Hcode|].
  rewrite <- (app_nil_r code). rewrite strip_ansi_escape_sequence by exact Hcode.
  reflexivity.
Qed.

Lemma generate_gradient_entries_invisible_sample :
  exists gradient,
    generate_gradient [(255, 0, 0); (0, 0, 255)] 3 = Ok gradient
    /\ Forall (fun code => escape_sequence code /\ strip_ansi code = [])
              gradient.
Proof.
  eexists. split; [vm_compute; reflexivity|].
  apply (generate_gradient_entries_invisible [(255, 0, 0); (0, 0, 255)] 3).
  - vm_compute. discriminate.
  - repeat constructor; vm_compute; discriminate.
  - vm_compute. reflexivity.
Defined.

(** X5: the gradient has more than [steps - segments] and at most
    [max(steps, segments)] entries: it falls short of [steps] by less
    than the number of segments, and exceeds [steps] only when there are
    fewer steps than segments. *)
Theorem generate_gradient_length_bounds (colors : list color) (steps : Z) :
  2 <= len colors -> Forall valid_color colors ->
  exists gradient,
    generate_gradient colors steps = Ok gradient
    /\ steps - (len colors - 1) < len gradient
       <= Z.max steps (len colors - 1).
Proof.
  intros Hlen Hvalid.
  destruct (generate_gradient_ok colors steps Hlen Hvalid)
    as (g & Hrun & _ & Hsize).
  exists g. split; [exact Hrun|]. rewrite Hsize.
  set (seg := len colors - 1) in *. assert (Hseg : 0 < seg) by (unfold seg; lia).
  pose proof (Z.mul_div_le steps seg Hseg) as Hle.
  pose proof (Z.mul_succ_div_gt steps seg Hseg) as Hgt.
  destruct (Z.max_spec 1 (steps / seg)) as [[Hq ->]|[Hq ->]]; nia.
Qed.

Lemma generate_gradient_length_bounds_banner :
  exists gradient,
    generate_gradient GRADIENT_COLORS 80 = Ok gradient
    /\ 80 - (len GRADIENT_COLORS - 1) < len gradient
       <= Z.max 80 (len GRADIENT_COLORS - 1).
Proof.
  apply (generate_gradient_length_bounds GRADIENT_COLORS 80).
  - vm_compute. discriminate.
  - repeat constructor; vm_compute; discriminate.
Defined.

Lemma range_In_iff (n x : Z) : 0 <= x < n -> In x (range n).
Proof.
  intros Hx. unfold range. apply in_map_iff. exists (Z.to_nat x).
  split; [lia|]. apply in_seq. lia.
Qed.

Lemma range_nth_error (n : Z) (k : nat) (x : Z) :
  nth_error (range n) k = Some x -> x = Z.of_nat k /\ Z.of_nat k < n.
Proof.
  intros Hk. unfold range in Hk.
  assert (Hlt : (k < Z.to_nat n)%nat).
  { assert (Hne : nth_error (map Z.of_nat (seq 0 (Z.to_nat n))) k <> None)
      by congruence.
    apply nth_error_Some in Hne. rewrite length_map, length_seq in Hne. lia. }
  rewrite nth_error_map, nth_error_seq in Hk.
  destruct (Nat.ltb_spec k (Z.to_nat n)); [|lia].
  cbn in Hk. injection Hk as <-. lia.
Qed.

(** At [t = 0.0] the interpolation returns the start channel exactly. *)
Lemma interpolate_at_zero (start_c end_c : Z) :
  valid_channel start_c -> valid_channel end_c ->
  interpolate start_c end_c (S754_zero false) = Ok start_c.
Proof.
  intros Hs He. unfold interpolate.
  rewrite Rounding.of_int_1. cbn [bind].
  assert (Hall : forallb
            (fun s => match F64.of_int s with
                      | Ok fs =>
                          match F64.to_int
                                  (F64.add (F64.mul fs (F64.sub one (S754_zero false)))
                                           (S754_zero false)) with
                          | Ok z => z =? s
                          | Raise _ => false
                          end
                      | Raise _ => false
                      end) (range 256) = true) by (vm_compute; reflexivity).
  rewrite forallb_forall in Hall.
  specialize (Hall start_c (range_In_iff 256 start_c
                              ltac:(unfold valid_channel in Hs; lia))).
  destruct (F64.of_int start_c) as [fs|]; [|discriminate]. cbn [bind].
  destruct (Rounding.of_int_le_pow2 8 end_c) as (fe & -> & Hfe);
    [unfold F64.emax, F64.prec; lia
    |unfold valid_channel in He; change (2 ^ 8) with 256; lia|].
  cbn [bind].
  assert (Hz : F64.mul fe (S754_zero false) = S754_zero false).
  { destruct fe as [[]|?| |[] m e]; simpl in Hfe; try contradiction;
      reflexivity. }
  rewrite Hz.
  destruct (F64.to_int _) as [z|]; [|discriminate].
  apply Z.eqb_eq in Hall. congruence.
Qed.

Lemma gradient_step_appends (start_color end_color : color)
    (steps_per_segment j : Z) (gradient : list str) :
  valid_color start_color -> valid_color end_color ->
  0 <= j < steps_per_segment ->
  exists code,
    gradient_step start_color end_color steps_per_segment j gradient
    = Ok (gradient ++ [code])
    /\ (j = 0 -> code = key_code start_color).
Proof.
  intros (Hsr & Hsg & Hsb) (Her & Heg & Heb) Hj. unfold gradient_step.
  destruct (Z.eq_dec j 0) as [->|Hj0].
  - unfold F64.truediv_int.
    replace (steps_per_segment =? 0) with false
      by (symmetry; apply Z.eqb_neq; lia).
    replace (steps_per_segment <? 0) with false
      by (symmetry; apply Z.ltb_ge; lia).
    cbn [Z.eqb bind]. rewrite !interpolate_at_zero by assumption.
    cbn [bind]. eexists. split; [reflexivity|]. intros _. reflexivity.
  - destruct (Rounding.truediv_int_le_pow2 j steps_per_segment Hj)
      as (t & -> & Ht).
    cbn [bind].
    destruct (interpolate_nonneg _ _ t Hsr Her Ht) as (r & -> & _).
    destruct (interpolate_nonneg _ _ t Hsg Heg Ht) as (g & -> & _).
    destruct (interpolate_nonneg _ _ t Hsb Heb Ht) as (b & -> & _).
    cbn [bind]. eexists. split; [reflexivity|]. intros H. contradiction.
Qed.

(** A loop whose body moves an invariant from iteration [k] to
    iteration [k + 1] runs to completion and ends in the invariant at
    the number of iterations. *)
Lemma for_indexed {S : Type} (I : nat -> S -> Prop)
    (xs : list Z) (body : Z -> S -> result S) :
  forall k0,
    (forall k x st, nth_error xs k = Some x -> I (k0 + k)%nat st ->
       exists st', body x st = Ok st' /\ I (k0 + Datatypes.S k)%nat st') ->
    forall st, I k0 st ->
      exists st', for_ xs body st = Ok st' /\ I (k0 + length xs)%nat st'.
Proof.
  induction xs as [|x xs IH]; intros k0 Hbody st Hst.
  - exists st. cbn [for_ length]. rewrite Nat.add_0_r. auto.
  - destruct (Hbody O x st eq_refl) as (st1 & H1 & HI1);
      [rewrite Nat.add_0_r; exact Hst|].
    destruct (IH (Datatypes.S k0)) with (st := st1) as (st2 & H2 & HI2).
    + intros k y st' Hy HI.
      replace (Datatypes.S k0 + Datatypes.S k)%nat
        with (k0 + Datatypes.S (Datatypes.S k))%nat by lia.
      apply (Hbody (Datatypes.S k) y st' Hy).
      replace (k0 + Datatypes.S k)%nat with (Datatypes.S k0 + k)%nat by lia.
      exact HI.
    + replace (Datatypes.S k0) with (k0 + 1)%nat by lia. exact HI1.
    + exists st2. cbn [for_ length]. rewrite H1. cbn [bind].
      split; [exact H2|].
      replace (k0 + Datatypes.S (length xs))%nat
        with (Datatypes.S k0 + length xs)%nat by lia.
      exact HI2.
Qed.

Lemma getitem_nth_error {A : Type} (xs : list A) (i : Z) :
  0 <= i < len xs ->
  exists x, getitem xs i = Ok x /\ nth_error xs (Z.to_nat i) = Some x.
Proof.
  intros Hi. unfold getitem, len in *. cbv zeta.
  assert (Hneg : (i <? 0) = false) by (apply Z.ltb_ge; lia).
  rewrite !Hneg.
  destruct (nth_error xs (Z.to_nat i)) as [x|] eqn:Hx.
  - exists x. split; reflexivity.
  - apply nth_error_None in Hx. lia.
Qed.

Lemma gradient_segment_appends (colors : list color)
    (steps_per_segment i : Z) (gradient : list str) :
  Forall valid_color colors -> 0 <= i < len colors - 1 ->
  1 <= steps_per_segment ->
  exists seg start_color,
    gradient_segment colors steps_per_segment i gradient = Ok (gradient ++ seg)
    /\ length seg = Z.to_nat steps_per_segment
    /\ nth_error colors (Z.to_nat i) = Some start_color
    /\ nth_error seg 0 = Some (key_code start_color).
Proof.
  intros Hvalid Hi Hsps. unfold gradient_segment.
  destruct (getitem_nth_error colors i) as (sc & -> & Hsc); [lia|].
  destruct (getitem_ok colors (i + 1)) as (ec & -> & Hec); [lia|].
  cbn [bind]. rewrite Forall_forall in Hvalid.
  assert (Hvs : valid_color sc)
    by (apply Hvalid; eapply nth_error_In; exact Hsc).
  assert (Hve : valid_color ec) by (apply Hvalid; exact Hec).
  destruct (for_indexed
              (fun k g => exists seg, g = gradient ++ seg /\ length seg = k
                          /\ (0 < k -> nth_error seg 0 = Some (key_code sc))%nat)
              (range steps_per_segment)
              (gradient_step sc ec steps_per_segment) O)
    with (st := gradient) as (g' & Hrun & seg & -> & Hl & Hhead).
  - intros k j g Hj (seg & -> & Hl & Hhead).
    apply range_nth_error in Hj. destruct Hj as [-> Hj].
    destruct (gradient_step_appends sc ec steps_per_segment (Z.of_nat k)
                (gradient ++ seg) Hvs Hve ltac:(lia)) as (code & -> & Hcode).
    eexists. split; [reflexivity|].
    exists (seg ++ [code]). rewrite app_assoc, length_app. cbn [length].
    repeat split; [lia|]. intros _.
    destruct seg as [|c seg]; cbn [length] in Hl.
    + cbn. rewrite Hcode by lia. reflexivity.
    + cbn [Nat.add] in Hl. apply Hhead. cbn in Hl. lia.
  - exists []. rewrite app_nil_r. repeat split. intros H. inversion H.
  - exists seg, sc. rewrite range_length in *. cbn [Nat.add] in *.
    repeat split; try assumption. apply Hhead. lia.
Qed.

(** X6: each segment of the gradient starts exactly at its key color:
    entry [i * steps_per_segment] is the color code of [colors[i]], and
    in particular the gradient begins with the first key color. *)
Theorem generate_gradient_segment_starts (colors : list color)
    (steps : Z) (gradient : list str) :
  2 <= len colors -> Forall valid_color colors ->
  generate_gradient colors steps = Ok gradient ->
  forall (i : nat) (c : color),
    Z.of_nat i < len colors - 1 ->
    nth_error colors i = Some c ->
    nth_error gradient
      (i * Z.to_nat (Z.max 1 (steps / (len colors - 1))))
    = Some (key_code c).
Proof.
  intros Hlen Hvalid Hrun. unfold generate_gradient, floordiv in Hrun.
  replace (len colors - 1 =? 0) with false in Hrun
    by (symmetry; apply Z.eqb_neq; lia).
  cbn [bind] in Hrun.
  set (sps := Z.max 1 (steps / (len colors - 1))) in *.
  set (n := Z.to_nat sps).
  assert (Hn : (1 <= n)%nat) by (unfold n, sps; lia).
  destruct (for_indexed
              (fun k g => length g = (k * n)%nat
                          /\ forall i c, (i < k)%nat ->
                               nth_error colors i = Some c ->
                               nth_error g (i * n) = Some (key_code c))
              (range (len colors - 1))
              (gradient_segment colors sps) O)
    with (st := @nil str) as (g & Hrun' & _ & Hkeys).
  - intros k x g Hx (Hl & Hkeys).
    apply range_nth_error in Hx. destruct Hx as [-> Hk].
    destruct (gradient_segment_appends colors sps (Z.of_nat k) g Hvalid)
      as (seg & sc & -> & Hseg & Hsc & Hhead); [lia|unfold sps; lia|].
    rewrite Nat2Z.id in Hsc.
    eexists. split; [reflexivity|]. cbn [Nat.add] in *.
    split; [rewrite length_app; fold n in Hseg; lia|].
    intros i c Hi Hc.
    destruct (Nat.eq_dec i k) as [->|Hik].
    + rewrite nth_error_app2 by lia. rewrite Hl, Nat.sub_diag.
      congruence.
    + rewrite nth_error_app1 by nia. apply Hkeys; [lia|exact Hc].
  - split; [reflexivity|]. intros i c Hi. inversion Hi.
  - rewrite Hrun in Hrun'. injection Hrun' as <-.
    intros i c Hi Hc. apply Hkeys; [|exact Hc].
    rewrite range_length. cbn [Nat.add]. lia.
Qed.

Lemma generate_gradient_segment_starts_banner :
  exists gradient,
    generate_gradient GRADIENT_COLORS 80 = Ok gradient
    /\ nth_error gradient (4 * Z.to_nat (Z.max 1 (80 / (len GRADIENT_COLORS - 1))))
       = Some (key_code (255, 20, 147)).
Proof.
  eexists. split; [vm_compute; reflexivity|].
  apply (generate_gradient_segment_starts GRADIENT_COLORS 80 _
           ltac:(vm_compute; discriminate)
           ltac:(repeat constructor; vm_compute; discriminate)
           ltac:(vm_compute; reflexivity) 4%nat (255, 20, 147)).
  - vm_compute. reflexivity.
  - reflexivity.
Defined.

(* ================================================================== *)
(** ** Further properties of [apply_gradient] *)

Lemma gradient_pieces_offset (gradient : list str) (text : str) :
  forall i n i' n', i + n = i' + n' ->
    gradient_pieces i text gradient n = gradient_pieces i' text gradient n'.
Proof.
  induction text as [|c text IH]; intros i n i' n' Heq; [reflexivity|].
  cbn [gradient_pieces]. rewrite Heq.
  rewrite (IH (i + 1) n (i' + 1) n') by lia. reflexivity.
Qed.

Lemma gradient_pieces_period (gradient : list str) (text : str) (k : Z) :
  forall i n,
    gradient_pieces i text gradient (n + k * len gradient)
    = gradient_pieces i text gradient n.
Proof.
  induction text as [|c text IH]; intros i n; [reflexivity|].
  cbn [gradient_pieces]. rewrite IH.
  replace (mod_ (i + (n + k * len gradient)) (len gradient))
    with (mod_ (i + n) (len gradient)); [reflexivity|].
  unfold mod_. destruct (len gradient =? 0) eqn:Hz; [reflexivity|].
  apply Z.eqb_neq in Hz. f_equal.
  rewrite Z.add_assoc, Z.mod_add by exact Hz. reflexivity.
Qed.

(** X7: the line index only counts modulo the length of the gradient:
    shifting it by any multiple of [len(gradient)] changes nothing,
    errors included. *)
Theorem apply_gradient_line_number_periodic (text : str)
    (gradient : list str) (line_number k : Z) :
  apply_gradient text gradient (line_number + k * len gradient)
  = apply_gradient text gradient line_number.
Proof. unfold apply_gradient. rewrite gradient_pieces_period. reflexivity. Qed.

Lemma gradient_pieces_app (gradient : list str) (n : Z) (a b : str) :
  forall i,
    gradient_pieces i (a ++ b) gradient n
    = (pa <- gradient_pieces i a gradient n ;;
       pb <- gradient_pieces (i + len a) b gradient n ;;
       Ok (pa ++ pb)).
Proof.
  induction a as [|c a IH]; intros i.
  - cbn [app gradient_pieces bind]. unfold len. cbn [length Z.of_nat].
    rewrite Z.add_0_r. destruct (gradient_pieces i b gradient n); reflexivity.
  - cbn [app gradient_pieces].
    destruct (mod_ (i + n) (len gradient)) as [k|e]; [|reflexivity].
    cbn [bind]. destruct (getitem gradient k) as [code|e]; [|reflexivity].
    cbn [bind]. rewrite IH.
    destruct (gradient_pieces (i + 1) a gradient n) as [pa|e]; [|reflexivity].
    cbn [bind].
    replace (i + len (c :: a)) with (i + 1 + len a)
      by (unfold len; cbn [length]; lia).
    destruct (gradient_pieces (i + 1 + len a) b gradient n); reflexivity.
Qed.

(** X8: coloring a concatenation is coloring the first part with the
    line index and the second part with the line index advanced by the
    length of the first, then concatenating; an error in either part is
    the error of the whole. *)
Theorem apply_gradient_app (a b : str) (gradient : list str)
    (line_number : Z) :
  apply_gradient (a ++ b) gradient line_number
  = (x <- apply_gradient a gradient line_number ;;
     y <- apply_gradient b gradient (line_number + len a) ;;
     Ok (x ++ y)).
Proof.
  unfold apply_gradient. rewrite gradient_pieces_app.
  rewrite (gradient_pieces_offset gradient b (0 + len a) line_number
             0 (line_number + len a)) by lia.
  destruct (gradient_pieces 0 a gradient line_number) as [pa|e];
    [|reflexivity].
  cbn [bind].
  destruct (gradient_pieces 0 b gradient (line_number + len a)) as [pb|e];
    [|reflexivity].
  cbn [bind]. rewrite concat_app. reflexivity.
Qed.

(* ================================================================== *)
(** ** Further properties of [center_text] *)

Section CenterFacts.

Variable classify : char -> option width_class.

(** X10: when the line fits, the padding is balanced: the left and
    right counts add up to [w - v] and the right one is the left one or
    one more. *)
Theorem center_text_balanced (s : str) (w : Z) :
  visible_width classify s <= w ->
  exists l r : nat,
    center_text classify s w = Ok (repeat space l ++ s ++ repeat space r)
    /\ Z.of_nat l + Z.of_nat r = w - visible_width classify s
    /\ (l <= r <= l + 1)%nat.
Proof.
  unfold visible_width, center_text. intros Hv.
  set (v := wcswidth classify (strip_ansi s)) in *.
  pose proof (Z.div_mod (w - v) 2 ltac:(lia)) as Hdm.
  pose proof (Z.mod_pos_bound (w - v) 2 ltac:(lia)) as Hm.
  assert (Hq : 0 <= (w - v) / 2) by (apply Z.div_pos; lia).
  replace (Z.max ((w - v) / 2) 0) with ((w - v) / 2) by lia.
  rewrite !repeat_char_ok by (unfold index_min; lia). cbn [bind].
  eexists _, _. split; [reflexivity|]. lia.
Qed.

(** X11: whenever [center_text] returns, it has only put spaces around
    the line, and they never join an escape sequence of the line:
    stripping the centered line gives the stripped line between the
    same two runs of spaces. It returns for every width, unless the
    width is smaller than the visible width by more than the index type
    allows. *)
Theorem strip_ansi_center_text (s : str) (w : Z) :
  (index_min <= w - visible_width classify s ->
   exists centered, center_text classify s w = Ok centered)
  /\ forall centered,
       center_text classify s w = Ok centered ->
       exists l r : nat,
         centered = repeat space l ++ s ++ repeat space r
         /\ strip_ansi centered
            = repeat space l ++ strip_ansi s ++ repeat space r.
Proof.
  unfold visible_width, center_text.
  set (v := wcswidth classify (strip_ansi s)).
  set (left := Z.max ((w - v) / 2) 0).
  assert (Hleft : 0 <= left) by (unfold left; lia).
  rewrite (repeat_char_ok space left) by (unfold index_min; lia).
  cbn [bind]. split.
  - intros Hw.
    assert (Hright : index_min <= w - left - v).
    { pose proof (Z.div_mod (w - v) 2 ltac:(lia)) as Hdm.
      pose proof (Z.mod_pos_bound (w - v) 2 ltac:(lia)) as Hm.
      unfold left, index_min in *. lia. }
    rewrite repeat_char_ok by exact Hright. cbn [bind]. eauto.
  - intros centered. unfold repeat_char.
    destruct (w - left - v <? index_min); [discriminate|].
    cbn [bind]. intros [= <-]. eexists _, _.
    split; [reflexivity|]. apply strip_ansi_padded.
Qed.

End CenterFacts.

Lemma center_text_balanced_sample :
  visible_width sample_classify (lit "hi") <= 7
  /\ exists l r : nat,
       center_text sample_classify (lit "hi") 7
       = Ok (repeat space l ++ lit "hi" ++ repeat space r)
       /\ Z.of_nat l + Z.of_nat r = 7 - visible_width sample_classify (lit "hi")
       /\ (l <= r <= l + 1)%nat.
Proof.
  assert (H : visible_width sample_classify (lit "hi") <= 7)
    by (vm_compute; discriminate).
  split; [exact H|].
  exact (center_text_balanced sample_classify (lit "hi") 7 H).
Defined.

Lemma strip_ansi_center_text_sample :
  exists centered,
    center_text sample_classify (color_code 1 2 3 ++ lit "hi") 6 = Ok centered
    /\ exists l r : nat,
         strip_ansi centered = repeat space l ++ lit "hi" ++ repeat space r.
Proof.
  destruct (strip_ansi_center_text sample_classify
              (color_code 1 2 3 ++ lit "hi") 6) as [Hret Hshape].
  destruct (Hret ltac:(vm_compute; discriminate)) as (centered & Hrun).
  exists centered. split; [exact Hrun|].
  destruct (Hshape centered Hrun) as (l & r & _ & Hstrip).
  exists l, r. rewrite Hstrip. reflexivity.
Defined.

(* ================================================================== *)
(** ** The version patterns *)

Lemma run_star (p : char -> bool) (re : list token) (s : str) :
  run (TStar p :: re) s = star p (run re) s.
Proof.
  cbn [run]. induction s as [|c s IH]; [reflexivity|].
  cbn [star]. rewrite <- IH. reflexivity.
Qed.

Lemma run_plus_cons (p : char -> bool) (re : list token) (c : char) (s : str) :
  run (TPlus p :: re) (c :: s) = if p c then star p (run re) s else None.
Proof.
  cbn [run]. destruct (p c); [|reflexivity].
  induction s as [|c' s IH]; [reflexivity|].
  cbn [star]. rewrite <- IH. reflexivity.
Qed.

Lemma star_sound (p : char -> bool) (k : str -> option found)
    (s : str) (m : found) :
  star p k s = Some m ->
  exists a rest, Forall (fun c => p c = true) a /\ s = a ++ rest
                 /\ k rest = Some m.
Proof.
  induction s as [|c s IH]; cbn [star]; intros H.
  - exists [], []. auto.
  - destruct (p c) eqn:Hc; [|exists [], (c :: s); auto].
    destruct (star p k s) as [m'|] eqn:Hs.
    + injection H as ->. destruct (IH eq_refl) as (a & rest & Ha & -> & Hk).
      exists (c :: a), rest. auto.
    + exists [], (c :: s). auto.
Qed.

Lemma star_complete (p : char -> bool) (k : str -> option found)
    (a rest : str) (m : found) :
  Forall (fun c => p c = true) a -> k rest = Some m ->
  exists m', star p k (a ++ rest) = Some m'.
Proof.
  intros Ha Hk. induction Ha as [|c a Hc _ IH]; cbn [app].
  - destruct rest as [|c r]; cbn [star]; [eauto|].
    destruct (p c); [|eauto].
    destruct (star p k r); eauto.
  - cbn [star]. rewrite Hc. destruct IH as (m' & ->). eauto.
Qed.

Lemma run_star_sound (p : char -> bool) (re : list token) (s : str)
    (m : found) :
  run (TStar p :: re) s = Some m ->
  exists a rest, Forall (fun c => p c = true) a /\ s = a ++ rest
                 /\ run re rest = Some m.
Proof. rewrite run_star. apply star_sound. Qed.

Lemma run_star_complete (p : char -> bool) (re : list token) (a rest : str)
    (m : found) :
  Forall (fun c => p c = true) a -> run re rest = Some m ->
  exists m', run (TStar p :: re) (a ++ rest) = Some m'.
Proof. rewrite run_star. apply star_complete. Qed.

Lemma run_plus_sound (p : char -> bool) (re : list token) (s : str)
    (m : found) :
  run (TPlus p :: re) s = Some m ->
  exists a rest, digit_run p a /\ s = a ++ rest /\ run re rest = Some m.
Proof.
  destruct s as [|c s]; [discriminate|]. rewrite run_plus_cons.
  destruct (p c) eqn:Hc; [|discriminate]. intros H.
  destruct (star_sound _ _ _ _ H) as (a & rest & Ha & -> & Hk).
  exists (c :: a), rest. repeat split; auto. discriminate.
Qed.

Lemma run_plus_complete (p : char -> bool) (re : list token) (a rest : str)
    (m : found) :
  digit_run p a -> run re rest = Some m ->
  exists m', run (TPlus p :: re) (a ++ rest) = Some m'.
Proof.
  intros [Hne Ha] Hk. destruct Ha as [|c a Hc Ha]; [congruence|].
  cbn [app]. rewrite run_plus_cons, Hc.
  eapply star_complete; eassumption.
Qed.

Lemma run_char_iff (c : char) (re : list token) (s : str) (m : found) :
  run (TChar c :: re) s = Some m <->
  exists rest, s = c :: rest /\ run re rest = Some m.
Proof.
  split.
  - destruct s as [|c' s]; [discriminate|]. cbn [run].
    destruct (N.eqb_spec c' c) as [->|]; [|discriminate].
    intros H. exists s. auto.
  - intros (rest & -> & H). cbn [run]. rewrite N.eqb_refl. exact H.
Qed.

Lemma run_mark_iff (re : list token) (s : str) (m : found) :
  run (TMark :: re) s = Some m <->
  exists marks rest, m = (s :: marks, rest) /\ run re s = Some (marks, rest).
Proof.
  cbn [run]. destruct (run re s) as [[marks rest]|]; split.
  - intros [= <-]. exists marks, rest. auto.
  - intros (marks' & rest' & -> & [= -> ->]). reflexivity.
  - discriminate.
  - intros (marks' & rest' & _ & H). discriminate.
Qed.

Lemma run_end_iff (s : str) (m : found) :
  run [TEnd] s = Some m <-> (s = [] \/ s = [newline]) /\ m = ([], s).
Proof.
  split.
  - destruct s as [|c [|c' s]]; cbn [run]; intros H;
      [injection H as <-; auto| |discriminate].
    destruct (N.eqb_spec c newline) as [->|]; [|discriminate].
    injection H as <-. auto.
  - intros [[->| ->] ->]; reflexivity.
Qed.

Lemma dotted_app (a b c r : str) :
  dotted a b c ++ r = a ++ 46%N :: b ++ 46%N :: c ++ r.
Proof.
  unfold dotted. rewrite <- app_assoc. cbn [app]. rewrite <- app_assoc.
  reflexivity.
Qed.

Lemma group_text_app (g r : str) : group_text (g ++ r) r = g.
Proof.
  unfold group_text. rewrite length_app.
  replace (length g + length r - length r)%nat with (length g + 0)%nat by lia.
  rewrite firstn_app_2. cbn [firstn]. apply app_nil_r.
Qed.

Section VersionFacts.

Variable is_decimal : char -> bool.
Variable is_space : char -> bool.

Lemma three_numbers_sound (k : list token) (s : str) (m : found) :
  run (three_numbers is_decimal ++ k) s = Some m ->
  exists a b c rest,
    digit_run is_decimal a /\ digit_run is_decimal b
    /\ digit_run is_decimal c
    /\ s = dotted a b c ++ rest
    /\ run k rest = Some m.
Proof.
  unfold three_numbers. cbn [app]. intros H.
  apply run_plus_sound in H. destruct H as (a & r1 & Ha & -> & H).
  apply run_char_iff in H. destruct H as (r2 & -> & H).
  apply run_plus_sound in H. destruct H as (b & r3 & Hb & -> & H).
  apply run_char_iff in H. destruct H as (r4 & -> & H).
  apply run_plus_sound in H. destruct H as (c & r5 & Hc & -> & H).
  exists a, b, c, r5. rewrite dotted_app. auto.
Qed.

Lemma three_numbers_complete (k : list token) (a b c rest : str)
    (m : found) :
  digit_run is_decimal a -> digit_run is_decimal b ->
  digit_run is_decimal c -> run k rest = Some m ->
  exists m', run (three_numbers is_decimal ++ k) (dotted a b c ++ rest)
             = Some m'.
Proof.
  intros Ha Hb Hc Hk. rewrite dotted_app. unfold three_numbers. cbn [app].
  destruct (run_plus_complete is_decimal k c rest m Hc Hk) as (m1 & H1).
  assert (H2 : run (TChar 46 :: TPlus is_decimal :: k) (46%N :: c ++ rest)
               = Some m1) by (apply run_char_iff; eauto).
  destruct (run_plus_complete is_decimal _ b _ m1 Hb H2) as (m3 & H3).
  assert (H4 : run (TChar 46 :: TPlus is_decimal :: TChar 46
                      :: TPlus is_decimal :: k)
                   (46%N :: b ++ 46%N :: c ++ rest) = Some m3)
    by (apply run_char_iff; eauto).
  exact (run_plus_complete is_decimal _ a _ m3 Ha H4).
Qed.

Lemma is_valid_version_accepts (a b c tail : str) :
  digit_run is_decimal a -> digit_run is_decimal b ->
  digit_run is_decimal c -> tail = [] \/ tail = [newline] ->
  is_valid_version is_decimal (dotted a b c ++ tail) = true.
Proof.
  intros Ha Hb Hc Ht. unfold is_valid_version, version_pattern.
  destruct (three_numbers_complete [TEnd] a b c tail ([], tail) Ha Hb Hc)
    as (m & ->); [apply run_end_iff; auto|reflexivity].
Qed.

(** X13: [is_valid_version] accepts exactly the strings made of three
    non-empty runs of decimal digits separated by single dots, with or
    without one newline at the very end; nothing else passes: no empty
    part, no fourth part, no prefix, no other suffix. *)
Theorem is_valid_version_iff (version : str) :
  is_valid_version is_decimal version = true <->
  exists a b c,
    digit_run is_decimal a /\ digit_run is_decimal b
    /\ digit_run is_decimal c
    /\ (version = a ++ 46%N :: b ++ 46%N :: c
        \/ version = a ++ 46%N :: b ++ 46%N :: c ++ [newline]).
Proof.
  split.
  - unfold is_valid_version, version_pattern.
    destruct (run _ version) as [m|] eqn:H; [intros _|discriminate].
    apply three_numbers_sound in H.
    destruct H as (a & b & c & rest & Ha & Hb & Hc & -> & H).
    apply run_end_iff in H. destruct H as [Hrest _].
    exists a, b, c.
    split; [exact Ha|]. split; [exact Hb|]. split; [exact Hc|].
    rewrite dotted_app.
    destruct Hrest as [->| ->]; [left; rewrite app_nil_r|right]; reflexivity.
  - intros (a & b & c & Ha & Hb & Hc & [->| ->]).
    + rewrite <- (app_nil_r c), <- dotted_app.
      apply is_valid_version_accepts; auto.
    + rewrite <- dotted_app. apply is_valid_version_accepts; auto.
Qed.

End VersionFacts.

Lemma is_valid_version_iff_sample :
  is_valid_version ascii_decimal (lit "10" ++ 46%N :: lit "2" ++ 46%N :: lit "3")
  = true.
Proof.
  apply (proj2 (is_valid_version_iff ascii_decimal _)).
  exists (lit "10"), (lit "2"), (lit "3").
  repeat split; try discriminate; repeat constructor.
Defined.

(* ================================================================== *)
(** ** The [Cargo.toml] patterns *)

Lemma split_unique (P : char -> Prop) (a a' : str) (x x' : char)
    (b b' : str) :
  Forall P a -> Forall P a' -> ~ P x -> ~ P x' ->
  a ++ x :: b = a' ++ x' :: b' -> a = a' /\ b = b'.
Proof.
  intros Ha. revert a'.
  induction Ha as [|c a Hc _ IH]; intros a' Ha' Hx Hx' Heq;
    destruct Ha' as [|c' a' Hc' Ha']; cbn [app] in Heq.
  - injection Heq as _ ->. auto.
  - injection Heq as -> _. contradiction.
  - injection Heq as <- _. contradiction.
  - injection Heq as <- Heq.
    destruct (IH a' Ha' Hx Hx' Heq) as [-> ->]. auto.
Qed.

Lemma version_entry_app (ws1 ws2 number post : str) :
  version_entry ws1 ws2 number ++ post
  = lit "version" ++ ws1 ++ 61%N :: ws2 ++ 34%N :: number ++ 34%N :: post.
Proof.
  unfold version_entry.
  rewrite <- ?app_assoc; cbn [app]; rewrite <- ?app_assoc; cbn [app];
    rewrite <- ?app_assoc; cbn [app]; rewrite <- ?app_assoc.
  reflexivity.
Qed.

Lemma search_hit (re : list token) (s : str) (m : found) :
  run re s = Some m -> search re s = Some m.
Proof. intros H. destruct s; cbn [search]; rewrite H; reflexivity. Qed.

Lemma search_sound (re : list token) (s : str) (m : found) :
  search re s = Some m ->
  exists pre t, s = pre ++ t /\ run re t = Some m.
Proof.
  induction s as [|c s IH]; cbn [search].
  - destruct (run re []) eqn:H; [|discriminate].
    intros [= <-]. exists [], []. auto.
  - destruct (run re (c :: s)) eqn:H.
    + intros [= <-]. exists [], (c :: s). auto.
    + intros Hs. destruct (IH Hs) as (pre & t & -> & Ht).
      exists (c :: pre), t. auto.
Qed.

Section CargoPatterns.

Variable is_decimal : char -> bool.
Variable is_space : char -> bool.

Lemma version_key_eq (k : list token) :
  version_key is_space ++ k
  = TChar 118 :: TChar 101 :: TChar 114 :: TChar 115 :: TChar 105
      :: TChar 111 :: TChar 110
      :: TStar is_space :: TChar 61 :: TStar is_space :: k.
Proof. reflexivity. Qed.

Lemma version_key_sound (k : list token) (t : str) (m : found) :
  run (version_key is_space ++ k) t = Some m ->
  exists ws1 ws2 rest,
    space_run is_space ws1 /\ space_run is_space ws2
    /\ t = lit "version" ++ ws1 ++ 61%N :: ws2 ++ rest
    /\ run k rest = Some m.
Proof.
  rewrite version_key_eq. intros H.
  do 7 (apply run_char_iff in H; destruct H as (? & -> & H)).
  apply run_star_sound in H. destruct H as (ws1 & r1 & Hws1 & -> & H).
  apply run_char_iff in H. destruct H as (r2 & -> & H).
  apply run_star_sound in H. destruct H as (ws2 & r3 & Hws2 & -> & H).
  exists ws1, ws2, r3. auto.
Qed.

Lemma version_key_complete (k : list token) (ws1 ws2 rest : str)
    (m : found) :
  space_run is_space ws1 -> space_run is_space ws2 -> run k rest = Some m ->
  exists m', run (version_key is_space ++ k)
                 (lit "version" ++ ws1 ++ 61%N :: ws2 ++ rest) = Some m'.
Proof.
  intros Hws1 Hws2 Hk. rewrite version_key_eq.
  destruct (run_star_complete is_space k ws2 rest m Hws2 Hk) as (m1 & H1).
  assert (H2 : run (TChar 61 :: TStar is_space :: k) (61%N :: ws2 ++ rest)
               = Some m1) by (apply run_char_iff; eauto).
  destruct (run_star_complete is_space _ ws1 _ m1 Hws1 H2) as (m3 & H3).
  exists m3. cbn [lit list_ascii_of_string map app]. cbn [run N.eqb].
  change (N_of_ascii "v") with 118%N. change (N_of_ascii "e") with 101%N.
  change (N_of_ascii "r") with 114%N. change (N_of_ascii "s") with 115%N.
  change (N_of_ascii "i") with 105%N. change (N_of_ascii "o") with 111%N.
  change (N_of_ascii "n") with 110%N.
  rewrite !N.eqb_refl. exact H3.
Qed.

Lemma quoted_sound (r : str) (m : found) :
  run (quoted_numbers is_decimal) r = Some m ->
  exists a b c post,
    digit_run is_decimal a /\ digit_run is_decimal b /\ digit_run is_decimal c
    /\ r = 34%N :: dotted a b c ++ 34%N :: post
    /\ m = ([dotted a b c ++ 34%N :: post; 34%N :: post], post).
Proof.
  unfold quoted_numbers. intros H.
  apply run_char_iff in H. destruct H as (r1 & -> & H).
  apply run_mark_iff in H. destruct H as (marks1 & rest1 & -> & H).
  apply three_numbers_sound in H.
  destruct H as (a & b & c & r2 & Ha & Hb & Hc & -> & H).
  apply run_mark_iff in H. destruct H as (marks2 & rest2 & [= -> ->] & H).
  apply run_char_iff in H. destruct H as (post & -> & H).
  cbn [run] in H. injection H as <- <-.
  exists a, b, c, post. auto.
Qed.

Lemma quoted_complete (a b c post : str) :
  digit_run is_decimal a -> digit_run is_decimal b -> digit_run is_decimal c ->
  exists m, run (quoted_numbers is_decimal) (34%N :: dotted a b c ++ 34%N :: post) = Some m.
Proof.
  intros Ha Hb Hc. unfold quoted_numbers.
  assert (H0 : run [TMark; TChar 34] (34%N :: post)
               = Some ([34%N :: post], post)).
  { cbn [run]. rewrite N.eqb_refl. reflexivity. }
  destruct (three_numbers_complete is_decimal [TMark; TChar 34] a b c
              (34%N :: post) _ Ha Hb Hc H0) as ([marks rest] & H1).
  eexists. apply run_char_iff. eexists. split; [reflexivity|].
  apply run_mark_iff. eauto.
Qed.

Lemma cargo_version_pattern_sound (t : str) (m : found) :
  run (cargo_version_pattern is_decimal is_space) t = Some m ->
  exists ws1 ws2 a b c post,
    space_run is_space ws1 /\ space_run is_space ws2 /\ digit_run is_decimal a /\ digit_run is_decimal b /\ digit_run is_decimal c
    /\ t = version_entry ws1 ws2 (dotted a b c) ++ post
    /\ m = ([dotted a b c ++ 34%N :: post; 34%N :: post], post).
Proof.
  intros H. apply (version_key_sound (quoted_numbers is_decimal)) in H.
  destruct H as (ws1 & ws2 & r & Hws1 & Hws2 & -> & H).
  apply quoted_sound in H.
  destruct H as (a & b & c & post & Ha & Hb & Hc & -> & ->).
  exists ws1, ws2, a, b, c, post. repeat (split; [assumption|]).
  split; [|reflexivity]. symmetry. apply version_entry_app.
Qed.

Lemma cargo_update_pattern_sound (t : str) (m : found) :
  run (cargo_update_pattern is_decimal is_space) t = Some m ->
  exists ws1 ws2 a b c post,
    space_run is_space ws1 /\ space_run is_space ws2 /\ digit_run is_decimal a /\ digit_run is_decimal b /\ digit_run is_decimal c
    /\ t = version_entry ws1 ws2 (dotted a b c) ++ post
    /\ version_replacement (dotted a b c) (fst m)
       = version_entry ws1 ws2 (dotted a b c)
    /\ (forall new_version,
          version_replacement new_version (fst m)
          = version_entry ws1 ws2 new_version)
    /\ snd m = post.
Proof.
  unfold cargo_update_pattern. cbn [app]. intros H.
  apply run_mark_iff in H. destruct H as (marks1 & rest1 & -> & H).
  apply (version_key_sound (TMark :: (quoted_numbers is_decimal))) in H.
  destruct H as (ws1 & ws2 & r & Hws1 & Hws2 & Ht & H).
  apply run_mark_iff in H. destruct H as (marks2 & rest2 & [= -> ->] & H).
  apply quoted_sound in H.
  destruct H as (a & b & c & post & Ha & Hb & Hc & -> & [= -> ->]).
  exists ws1, ws2, a, b, c, post. repeat (split; [assumption|]).
  assert (Hrepl : forall new_version,
             version_replacement new_version
               [t; 34%N :: dotted a b c ++ 34%N :: post;
                dotted a b c ++ 34%N :: post; 34%N :: post]
             = version_entry ws1 ws2 new_version).
  { intros new_version. unfold version_replacement.
    assert (Hk : t = (lit "version" ++ ws1 ++ 61%N :: ws2)
                       ++ 34%N :: dotted a b c ++ 34%N :: post).
    { rewrite Ht. rewrite <- ?app_assoc; cbn [app]; rewrite <- ?app_assoc.
      reflexivity. }
    rewrite Hk, group_text_app. unfold version_entry.
    rewrite <- ?app_assoc; cbn [app]; rewrite <- ?app_assoc. reflexivity. }
  cbn [fst snd]. repeat split; try apply Hrepl.
  rewrite Ht. symmetry. apply version_entry_app.
Qed.

Lemma version_entry_complete (ws1 ws2 a b c post : str) :
  space_run is_space ws1 -> space_run is_space ws2 -> digit_run is_decimal a -> digit_run is_decimal b -> digit_run is_decimal c ->
  (exists m, run (cargo_version_pattern is_decimal is_space)
               (version_entry ws1 ws2 (dotted a b c) ++ post) = Some m)
  /\ (exists m, run (cargo_update_pattern is_decimal is_space)
                  (version_entry ws1 ws2 (dotted a b c) ++ post) = Some m).
Proof.
  intros Hws1 Hws2 Ha Hb Hc.
  rewrite version_entry_app.
  destruct (quoted_complete a b c post Ha Hb Hc) as (m0 & H0).
  split.
  - exact (version_key_complete (quoted_numbers is_decimal) ws1 ws2 _ m0 Hws1 Hws2 H0).
  - destruct m0 as [marks0 rest0].
    assert (H1 : run (TMark :: (quoted_numbers is_decimal))
                     (34%N :: dotted a b c ++ 34%N :: post)
                 = Some ((34%N :: dotted a b c ++ 34%N :: post) :: marks0,
                         rest0))
      by (apply run_mark_iff; eauto).
    destruct (version_key_complete (TMark :: (quoted_numbers is_decimal)) ws1 ws2 _ _
                Hws1 Hws2 H1) as ([marks2 rest2] & H2).
    eexists. unfold cargo_update_pattern. cbn [app].
    apply run_mark_iff. eauto.
Qed.

Hypothesis equals_not_space : is_space 61%N = false.
Hypothesis quote_not_space : is_space 34%N = false.
Hypothesis quote_not_decimal : is_decimal 34%N = false.

Lemma dotted_no_quote (a b c : str) :
  digit_run is_decimal a -> digit_run is_decimal b -> digit_run is_decimal c ->
  Forall (fun u => u <> 34%N) (dotted a b c).
Proof.
  intros [_ Ha] [_ Hb] [_ Hc].
  assert (Hd : forall l, Forall (fun u => is_decimal u = true) l ->
                         Forall (fun u => u <> 34%N) l).
  { intros l Hl. eapply Forall_impl; [|exact Hl].
    intros u Hu ->. congruence. }
  unfold dotted. apply Forall_app. split; [apply Hd, Ha|].
  constructor; [discriminate|].
  apply Forall_app. split; [apply Hd, Hb|].
  constructor; [discriminate|]. apply Hd, Hc.
Qed.

(** The text of a version entry determines its parts. *)
Lemma version_entry_unique (ws1 ws2 a b c post ws1' ws2' a' b' c' post' : str) :
  space_run is_space ws1 -> space_run is_space ws2 -> digit_run is_decimal a -> digit_run is_decimal b -> digit_run is_decimal c ->
  space_run is_space ws1' -> space_run is_space ws2' -> digit_run is_decimal a' -> digit_run is_decimal b' -> digit_run is_decimal c' ->
  version_entry ws1 ws2 (dotted a b c) ++ post
  = version_entry ws1' ws2' (dotted a' b' c') ++ post' ->
  ws1 = ws1' /\ ws2 = ws2' /\ dotted a b c = dotted a' b' c' /\ post = post'.
Proof.
  intros Hws1 Hws2 Ha Hb Hc Hws1' Hws2' Ha' Hb' Hc' Heq.
  rewrite !version_entry_app in Heq. apply app_inv_head in Heq.
  destruct (split_unique (fun x => is_space x = true) ws1 ws1' 61%N 61%N _ _
              Hws1 Hws1' ltac:(congruence) ltac:(congruence) Heq)
    as [-> Heq2].
  destruct (split_unique (fun x => is_space x = true) ws2 ws2' 34%N 34%N _ _
              Hws2 Hws2' ltac:(congruence) ltac:(congruence) Heq2)
    as [-> Heq3].
  destruct (split_unique (fun u => u <> 34%N) _ _ 34%N 34%N _ _
              (dotted_no_quote a b c Ha Hb Hc)
              (dotted_no_quote a' b' c' Ha' Hb' Hc')
              ltac:(congruence) ltac:(congruence) Heq3) as [-> ->].
  auto.
Qed.

End CargoPatterns.

(* ================================================================== *)
(** ** [get_current_version] *)

Section CurrentVersion.

Variable is_decimal : char -> bool.
Variable is_space : char -> bool.

(** X14: whatever [get_current_version] extracts from the text of
    [Cargo.toml] is three non-empty runs of digits separated by dots,
    and is a version [is_valid_version] accepts. *)
Theorem get_current_version_is_valid (content version : str) :
  get_current_version is_decimal is_space content = Some version ->
  (exists a b c,
     digit_run is_decimal a /\ digit_run is_decimal b
     /\ digit_run is_decimal c
     /\ version = a ++ 46%N :: b ++ 46%N :: c)
  /\ is_valid_version is_decimal version = true.
Proof.
  unfold get_current_version.
  destruct (search _ content) as [m|] eqn:Hs; [|discriminate].
  apply search_sound in Hs. destruct Hs as (pre & t & -> & Hrun).
  apply cargo_version_pattern_sound in Hrun.
  destruct Hrun as (ws1 & ws2 & a & b & c & post & _ & _ & Ha & Hb & Hc
                    & _ & ->).
  rewrite group_text_app. intros [= <-]. split.
  - exists a, b, c. auto.
  - rewrite <- (app_nil_r (dotted a b c)).
    apply is_valid_version_accepts; auto.
Qed.

(** X16: when the text of [Cargo.toml] does not hold the word
    [version] at all, [get_current_version] finds nothing and the script
    stops with an error. *)
Theorem get_current_version_missing_key (content : str) :
  (forall pre post, content <> pre ++ lit "version" ++ post) ->
  get_current_version is_decimal is_space content = None.
Proof.
  intros Hmiss. unfold get_current_version.
  destruct (search _ content) as [m|] eqn:Hs; [|reflexivity].
  apply search_sound in Hs. destruct Hs as (pre & t & -> & Hrun).
  apply cargo_version_pattern_sound in Hrun.
  destruct Hrun as (ws1 & ws2 & a & b & c & post & _ & _ & _ & _ & _
                    & -> & _).
  exfalso. apply (Hmiss pre (ws1 ++ 61%N :: ws2 ++ 34%N
                               :: dotted a b c ++ 34%N :: post)).
  rewrite version_entry_app. reflexivity.
Qed.

Lemma search_skip_prefix (pre t : str) :
  ~ In 118%N pre ->
  search (cargo_version_pattern is_decimal is_space) (pre ++ t)
  = search (cargo_version_pattern is_decimal is_space) t.
Proof.
  induction pre as [|c pre IH]; intros Hpre; [reflexivity|].
  cbn [app search].
  assert (Hrun : run (cargo_version_pattern is_decimal is_space)
                     (c :: pre ++ t) = None).
  { unfold cargo_version_pattern. rewrite version_key_eq. cbn [run].
    destruct (N.eqb_spec c 118) as [->|]; [|reflexivity].
    exfalso. apply Hpre. left. reflexivity. }
  rewrite Hrun. apply IH. intros H. apply Hpre. right. exact H.
Qed.

Hypothesis equals_not_space : is_space 61%N = false.
Hypothesis quote_not_space : is_space 34%N = false.
Hypothesis quote_not_decimal : is_decimal 34%N = false.

Lemma get_current_version_at (pre ws1 ws2 a b c post : str) :
  ~ In 118%N pre ->
  Forall (fun x => is_space x = true) ws1 ->
  Forall (fun x => is_space x = true) ws2 ->
  digit_run is_decimal a -> digit_run is_decimal b ->
  digit_run is_decimal c ->
  get_current_version is_decimal is_space
    (pre ++ version_entry ws1 ws2 (dotted a b c) ++ post)
  = Some (dotted a b c).
Proof.
  intros Hpre Hws1 Hws2 Ha Hb Hc.
  unfold get_current_version. rewrite search_skip_prefix by exact Hpre.
  destruct (version_entry_complete is_decimal is_space ws1 ws2 a b c post
              Hws1 Hws2 Ha Hb Hc) as [(m & Hrun) _].
  rewrite (search_hit _ _ _ Hrun).
  apply cargo_version_pattern_sound in Hrun.
  destruct Hrun as (ws1' & ws2' & a' & b' & c' & post' & Hws1' & Hws2'
                    & Ha' & Hb' & Hc' & Ht & ->).
  destruct (version_entry_unique is_decimal is_space
              equals_not_space quote_not_space quote_not_decimal
              _ _ _ _ _ _ _ _ _ _ _ _
              Hws1 Hws2 Ha Hb Hc Hws1' Hws2' Ha' Hb' Hc' Ht)
    as (_ & _ & <- & _).
  rewrite group_text_app. reflexivity.
Qed.

(** X15: [get_current_version] returns the version of the first
    [version = "a.b.c"] it meets: when no letter [v] comes before it,
    whatever the spacing around [=] and whatever follows the closing
    quote, the digits between the quotes are returned as written. *)
Theorem get_current_version_finds (pre ws1 ws2 a b c post : str) :
  ~ In 118%N pre ->
  Forall (fun x => is_space x = true) ws1 ->
  Forall (fun x => is_space x = true) ws2 ->
  digit_run is_decimal a -> digit_run is_decimal b ->
  digit_run is_decimal c ->
  get_current_version is_decimal is_space
    (pre ++ lit "version" ++ ws1 ++ 61%N :: ws2 ++ 34%N
       :: (a ++ 46%N :: b ++ 46%N :: c) ++ 34%N :: post)
  = Some (a ++ 46%N :: b ++ 46%N :: c).
Proof.
  intros Hpre Hws1 Hws2 Ha Hb Hc.
  rewrite <- (version_entry_app ws1 ws2 (a ++ 46%N :: b ++ 46%N :: c) post).
  apply (get_current_version_at pre ws1 ws2 a b c post); assumption.
Qed.

End CurrentVersion.

Lemma get_current_version_is_valid_sample :
  get_current_version ascii_decimal ascii_space
    (lit "name = x version = " ++ 34%N :: lit "0.12.3" ++ [34%N])
  = Some (lit "0.12.3")
  /\ is_valid_version ascii_decimal (lit "0.12.3") = true.
Proof.
  assert (H : get_current_version ascii_decimal ascii_space
                (lit "name = x version = " ++ 34%N :: lit "0.12.3" ++ [34%N])
              = Some (lit "0.12.3")) by (vm_compute; reflexivity).
  split; [exact H|].
  exact (proj2 (get_current_version_is_valid ascii_decimal ascii_space _ _ H)).
Defined.

Lemma get_current_version_missing_key_sample :
  get_current_version ascii_decimal ascii_space (lit "name = x") = None.
Proof.
  apply (get_current_version_missing_key ascii_decimal ascii_space
           (lit "name = x")).
  intros pre post H.
  do 8 (destruct pre as [|? pre]; [discriminate H|injection H as _ H]).
  destruct pre; discriminate H.
Defined.

Lemma get_current_version_finds_sample :
  get_current_version ascii_decimal ascii_space
    (lit "[package] name = x " ++ lit "version" ++ lit "  "
       ++ 61%N :: lit " " ++ 34%N
       :: (lit "0" ++ 46%N :: lit "12" ++ 46%N :: lit "3") ++ 34%N
       :: lit " edition")
  = Some (lit "0" ++ 46%N :: lit "12" ++ 46%N :: lit "3").
Proof.
  apply (get_current_version_finds ascii_decimal ascii_space
           eq_refl eq_refl eq_refl
           (lit "[package] name = x ") (lit "  ") (lit " ")
           (lit "0") (lit "12") (lit "3") (lit " edition")).
  - vm_compute. intuition discriminate.
  - repeat constructor.
  - repeat constructor.
  - split; [discriminate|repeat constructor].
  - split; [discriminate|repeat constructor].
  - split; [discriminate|repeat constructor].
Defined.

(* ================================================================== *)
(** ** [update_version] *)

Lemma bol_after_cons (bol : bool) (c : char) (x : str) :
  bol_after bol (c :: x) = bol_after (c =? newline)%N x.
Proof.
  unfold bol_after. cbn [rev]. destruct (rev x) as [|y l]; reflexivity.
Qed.

Lemma bol_after_line_start (pre : str) :
  bol_after true pre = true <-> line_start pre.
Proof.
  unfold bol_after, line_start. split.
  - destruct (rev pre) as [|c l] eqn:Hrev.
    + intros _. left. apply (f_equal (@rev char)) in Hrev.
      rewrite rev_involutive in Hrev. exact Hrev.
    + intros Hc. apply N.eqb_eq in Hc. subst c. right. exists (rev l).
      apply (f_equal (@rev char)) in Hrev.
      rewrite rev_involutive in Hrev. exact Hrev.
  - intros [->|(pre' & ->)]; [reflexivity|].
    rewrite rev_app_distr. reflexivity.
Qed.

Section Substitution.

Variable re : list token.
Variable repl : list str -> str.

Lemma sub_line_starts_skip (x post : str) :
  forall bol,
    sub_line_starts re repl bol (length x) (x ++ post)
    = sub_line_starts re repl (bol_after bol x) O post.
Proof.
  induction x as [|c x IH]; intros bol; [reflexivity|].
  cbn [app length sub_line_starts]. rewrite IH, bol_after_cons. reflexivity.
Qed.

(** A match at a line start is replaced and the scan goes on after it. *)
Lemma sub_line_starts_match (x post : str) (marks : list str) :
  x <> [] -> run re (x ++ post) = Some (marks, post) ->
  sub_line_starts re repl true O (x ++ post)
  = repl marks ++ sub_line_starts re repl (bol_after true x) O post.
Proof.
  intros Hx Hrun. destruct x as [|c x]; [congruence|].
  cbn [app sub_line_starts]. cbn [app] in Hrun. rewrite Hrun.
  replace (length (c :: x ++ post) - length post)%nat with (S (length x))
    by (cbn [length]; rewrite length_app; lia).
  rewrite sub_line_starts_skip, bol_after_cons. reflexivity.
Qed.

(** Text in which the pattern matches at no line start is copied. *)
Lemma sub_line_starts_copy (pre post : str) :
  (forall c s, In c pre -> run re (c :: s) = None) ->
  forall bol,
    sub_line_starts re repl bol O (pre ++ post)
    = pre ++ sub_line_starts re repl (bol_after bol pre) O post.
Proof.
  intros Hfail. induction pre as [|c pre IH]; intros bol; [reflexivity|].
  cbn [app sub_line_starts].
  rewrite (Hfail c (pre ++ post) (or_introl eq_refl)).
  replace (if bol then None else None) with (@None found)
    by (destruct bol; reflexivity).
  rewrite IH, bol_after_cons; [reflexivity|].
  intros c' s' Hc'. apply Hfail. right. exact Hc'.
Qed.

End Substitution.

Section UpdateVersion.

Variable is_decimal : char -> bool.
Variable is_space : char -> bool.

Lemma cargo_update_pattern_head (c : char) (s : str) :
  c <> 118%N ->
  run (cargo_update_pattern is_decimal is_space) (c :: s) = None.
Proof.
  intros Hc. unfold cargo_update_pattern. cbn [app].
  rewrite version_key_eq. cbn [run].
  destruct (N.eqb_spec c 118); [contradiction|reflexivity].
Qed.

Lemma cargo_update_pattern_nil :
  run (cargo_update_pattern is_decimal is_space) [] = None.
Proof. reflexivity. Qed.

(** X18: when no line of [Cargo.toml] starts with the letter [v],
    [update_version] writes the text back unchanged: a version key that
    is indented, or absent, is not updated. *)
Theorem update_version_no_key (new_version content : str) :
  ~ In 92%N new_version ->
  (forall pre post, content = pre ++ 118%N :: post -> ~ line_start pre) ->
  update_version is_decimal is_space new_version content = Some content.
Proof.
  intros Hbs Hkey. unfold update_version.
  replace (existsb (N.eqb 92) new_version) with false.
  2:{ symmetry. apply not_true_is_false. intros H.
      apply existsb_exists in H. destruct H as (x & Hx & Heq).
      apply N.eqb_eq in Heq. subst x. contradiction. }
  f_equal.
  assert (Hgen : forall s bol,
             (forall pre post, s = pre ++ 118%N :: post ->
                               bol_after bol pre = false) ->
             sub_line_starts (cargo_update_pattern is_decimal is_space)
               (version_replacement new_version) bol O s = s).
  { induction s as [|c s IH]; intros bol Hs.
    - destruct bol; reflexivity.
    - cbn [sub_line_starts].
      assert (Hrun : (if bol
                      then run (cargo_update_pattern is_decimal is_space)
                               (c :: s)
                      else None) = None).
      { destruct bol; [|reflexivity].
        apply cargo_update_pattern_head. intros ->.
        specialize (Hs [] s eq_refl). discriminate Hs. }
      rewrite Hrun. f_equal. apply IH.
      intros pre post ->. rewrite <- (bol_after_cons bol).
      apply (Hs (c :: pre) post). reflexivity. }
  apply Hgen. intros pre post Hc.
  apply not_true_is_false. intros Hb.
  apply bol_after_line_start in Hb. exact (Hkey pre post Hc Hb).
Qed.

Hypothesis equals_not_space : is_space 61%N = false.
Hypothesis quote_not_space : is_space 34%N = false.
Hypothesis quote_not_decimal : is_decimal 34%N = false.
Hypothesis backslash_not_decimal : is_decimal 92%N = false.

Lemma update_version_entry (pre ws1 ws2 a b c post a' b' c' : str) :
  ~ In 118%N pre -> line_start pre ->
  Forall (fun x => is_space x = true) ws1 ->
  Forall (fun x => is_space x = true) ws2 ->
  digit_run is_decimal a -> digit_run is_decimal b ->
  digit_run is_decimal c ->
  digit_run is_decimal a' -> digit_run is_decimal b' ->
  digit_run is_decimal c' ->
  exists post',
    update_version is_decimal is_space (dotted a' b' c')
      (pre ++ version_entry ws1 ws2 (dotted a b c) ++ post)
    = Some (pre ++ version_entry ws1 ws2 (dotted a' b' c') ++ post')
    /\ get_current_version is_decimal is_space
         (pre ++ version_entry ws1 ws2 (dotted a' b' c') ++ post')
       = Some (dotted a' b' c').
Proof.
  intros Hpre Hline Hws1 Hws2 Ha Hb Hc Ha' Hb' Hc'.
  set (re := cargo_update_pattern is_decimal is_space).
  set (repl := version_replacement (dotted a' b' c')).
  set (entry := version_entry ws1 ws2 (dotted a b c)).
  exists (sub_line_starts re repl (bol_after true entry) O post).
  split.
  - unfold update_version.
    replace (existsb (N.eqb 92) (dotted a' b' c')) with false.
    2:{ symmetry. apply not_true_is_false. intros H.
        apply existsb_exists in H. destruct H as (x & Hx & Heq).
        apply N.eqb_eq in Heq. subst x.
        assert (Hd : forall l, digit_run is_decimal l -> ~ In 92%N l).
        { intros l [_ Hl] Hin. rewrite Forall_forall in Hl.
          specialize (Hl _ Hin). congruence. }
        unfold dotted in Hx. apply in_app_or in Hx.
        destruct Hx as [Hx|[Hx|Hx]]; [exact (Hd a' Ha' Hx)|discriminate|].
        apply in_app_or in Hx.
        destruct Hx as [Hx|[Hx|Hx]]; [exact (Hd b' Hb' Hx)|discriminate|].
        exact (Hd c' Hc' Hx). }
    f_equal. fold re. fold repl.
    rewrite sub_line_starts_copy.
    2:{ intros x s Hx. apply cargo_update_pattern_head. intros ->.
        contradiction. }
    f_equal. rewrite (proj2 (bol_after_line_start pre) Hline).
    destruct (version_entry_complete is_decimal is_space ws1 ws2 a b c post
                Hws1 Hws2 Ha Hb Hc) as [_ ([marks rest] & Hrun)].
    fold entry in Hrun. fold re in Hrun.
    pose proof (cargo_update_pattern_sound is_decimal is_space _ _ Hrun)
      as (ws1' & ws2' & a0 & b0 & c0 & post0 & Hws1' & Hws2' & Ha0 & Hb0
          & Hc0 & Ht & _ & Hrepl & Hrest).
    cbn [fst snd] in Hrepl, Hrest. subst rest.
    destruct (version_entry_unique is_decimal is_space
                equals_not_space quote_not_space quote_not_decimal
                _ _ _ _ _ _ _ _ _ _ _ _
                Hws1 Hws2 Ha Hb Hc Hws1' Hws2' Ha0 Hb0 Hc0 Ht)
      as (<- & <- & _ & <-).
    rewrite (sub_line_starts_match re repl entry post marks);
      [|discriminate|exact Hrun].
    unfold repl at 1. rewrite Hrepl. reflexivity.
  - apply (get_current_version_at is_decimal is_space
             equals_not_space quote_not_space quote_not_decimal);
      assumption.
Qed.

Lemma is_valid_version_sound (version : str) :
  is_valid_version is_decimal version = true ->
  exists a b c tail,
    digit_run is_decimal a /\ digit_run is_decimal b
    /\ digit_run is_decimal c
    /\ version = dotted a b c ++ tail /\ (tail = [] \/ tail = [newline]).
Proof.
  unfold is_valid_version, version_pattern.
  destruct (run _ version) as [m|] eqn:H; [intros _|discriminate].
  apply three_numbers_sound in H.
  destruct H as (a & b & c & rest & Ha & Hb & Hc & -> & H).
  apply run_end_iff in H. destruct H as [Hrest _].
  exists a, b, c, rest. auto.
Qed.

(** X17: updating then reading back gives the new version. When the
    first [version = "..."] of [Cargo.toml] stands at the start of a line
    and no letter [v] comes before it, [update_version] with a version
    that [is_valid_version] accepts (and that holds no newline) keeps
    everything up to the opening quote, puts the new version between
    the quotes, and [get_current_version] on the text written back
    returns it. *)
Theorem update_then_get_current_version
    (pre ws1 ws2 a b c post new_version : str) :
  ~ In 118%N pre -> line_start pre ->
  Forall (fun x => is_space x = true) ws1 ->
  Forall (fun x => is_space x = true) ws2 ->
  digit_run is_decimal a -> digit_run is_decimal b ->
  digit_run is_decimal c ->
  is_valid_version is_decimal new_version = true ->
  ~ In newline new_version ->
  exists post',
    update_version is_decimal is_space new_version
      (pre ++ version_entry ws1 ws2 (dotted a b c) ++ post)
    = Some (pre ++ version_entry ws1 ws2 new_version ++ post')
    /\ get_current_version is_decimal is_space
         (pre ++ version_entry ws1 ws2 new_version ++ post')
       = Some new_version.
Proof.
  intros Hpre Hline Hws1 Hws2 Ha Hb Hc Hvalid Hnl.
  destruct (is_valid_version_sound new_version Hvalid)
    as (a' & b' & c' & tail & Ha' & Hb' & Hc' & -> & Htail).
  destruct Htail as [->| ->].
  - rewrite app_nil_r.
    apply (update_version_entry pre ws1 ws2 a b c post a' b' c');
      assumption.
  - exfalso. apply Hnl. apply in_or_app. right. left. reflexivity.
Qed.

End UpdateVersion.

Lemma update_version_no_key_sample :
  update_version ascii_decimal ascii_space (lit "1.0.0")
    (lit "  version = x")
  = Some (lit "  version = x").
Proof.
  apply (update_version_no_key ascii_decimal ascii_space).
  - vm_compute. intuition discriminate.
  - intros pre post H [->|(pre' & ->)]; [discriminate H|].
    assert (Hin : In newline (lit "  version = x")).
    { rewrite H. apply in_or_app. left. apply in_or_app. right.
      left. reflexivity. }
    vm_compute in Hin. intuition discriminate.
Defined.

Lemma update_then_get_current_version_sample :
  exists post',
    update_version ascii_decimal ascii_space (lit "0.2.0")
      ((lit "[package]" ++ [newline])
         ++ version_entry (lit " ") (lit " ")
              (dotted (lit "0") (lit "1") (lit "9")) ++ [newline])
    = Some ((lit "[package]" ++ [newline])
              ++ version_entry (lit " ") (lit " ") (lit "0.2.0") ++ post')
    /\ get_current_version ascii_decimal ascii_space
         ((lit "[package]" ++ [newline])
            ++ version_entry (lit " ") (lit " ") (lit "0.2.0") ++ post')
       = Some (lit "0.2.0").
Proof.
  apply (update_then_get_current_version ascii_decimal ascii_space
           eq_refl eq_refl eq_refl eq_refl
           (lit "[package]" ++ [newline]) (lit " ") (lit " ")
           (lit "0") (lit "1") (lit "9") [newline] (lit "0.2.0")).
  - vm_compute. intuition discriminate.
  - right. exists (lit "[package]"). reflexivity.
  - repeat constructor.
  - repeat constructor.
  - split; [discriminate|repeat constructor].
  - split; [discriminate|repeat constructor].
  - split; [discriminate|repeat constructor].
  - vm_compute. reflexivity.
  - vm_compute. intuition discriminate.
Defined.
